(** * Execution-environment selector of the graph editor, its FRP wiring,
    and the [CircularVecDeque] container.

    Sources embedded:
    - [src/app/gui/view/graph-editor/src/execution_environment.rs]
      ([get_next_execution_environment], [init_frp]);
    - [src/lib/rust/data-structures/src/circular_vec.rs] ([CircularVecDeque]);
    - [src/app/gui/view/examples/execution-environment-dropdown/src/lib.rs]
      ([make_entries]). *)

From Stdlib Require Import List String Arith Lia Bool.
Import ListNotations.
Open Scope list_scope.
Set Warnings "-register-all".

(* ================================================================== *)
(** ** Panicking operations of Rust *)

(** A Rust computation either returns or panics. *)
Inductive outcome (A : Type) : Type :=
| Ret (a : A)
| Panic.
Arguments Ret {A} a.
Arguments Panic {A}.

Definition obind {A B : Type} (m : outcome A) (k : A -> outcome B) : outcome B :=
  match m with
  | Ret a => k a
  | Panic => Panic
  end.

Notation "x <- m ;; k" := (obind m (fun x => k))
  (at level 61, m at next level, right associativity).

(** [a % b] on [usize]: panics when [b = 0]. *)
Definition usize_rem (a b : nat) : outcome nat :=
  if b =? 0 then Panic else Ret (a mod b).

(** Slice indexing [xs[i]]: panics when out of bounds. *)
Definition slice_index {A : Type} (xs : list A) (i : nat) : outcome A :=
  match nth_error xs i with
  | Some x => Ret x
  | None => Panic
  end.

(** [Iterator::position]: index of the first element satisfying [p]. *)
Fixpoint position {A : Type} (p : A -> bool) (xs : list A) : option nat :=
  match xs with
  | [] => None
  | x :: xs' => if p x then Some 0 else option_map S (position p xs')
  end.

(* ================================================================== *)
(** ** [get_next_execution_environment] *)

(** An [ExecutionEnvironment] of the selector is an (immutable) string,
    compared with [==]. *)
Definition ExecutionEnvironment := string.

(** [make_entries] of the dropdown example. *)
Definition Design : ExecutionEnvironment := "Design"%string.
Definition Live : ExecutionEnvironment := "Live"%string.
Definition make_entries : list ExecutionEnvironment := [Design; Live].

(** [let index = available.iter().position(|mode| mode == current)?;
     let next_index = (index + 1) % available.len();
     Some(available[next_index].clone())] *)
Definition get_next_execution_environment (current : ExecutionEnvironment)
    (available : list ExecutionEnvironment) : outcome (option ExecutionEnvironment) :=
  match position (fun mode => String.eqb mode current) available with
  | None => Ret None
  | Some index =>
      next_index <- usize_rem (index + 1) (List.length available) ;;
      x <- slice_index available next_index ;;
      Ret (Some x)
  end.

(* ================================================================== *)
(** ** [CircularVecDeque] *)

Module CircularVec.
Section CircularVec.
Variable T : Type.

(** [VecDeque<T>] as the list of its elements, front first. *)
Record CircularVecDeque := { capacity : nat; vec : list T }.

Definition new (cap : nat) : CircularVecDeque := {| capacity := cap; vec := [] |}.

Definition len (d : CircularVecDeque) : nat := List.length (vec d).

Definition is_full (d : CircularVecDeque) : bool := len d =? capacity d.

Definition vd_pop_front (l : list T) : list T :=
  match l with [] => [] | _ :: l' => l' end.

Definition vd_pop_back (l : list T) : list T := removelast l.

Definition push_front (d : CircularVecDeque) (value : T) : CircularVecDeque :=
  let v := if is_full d then vd_pop_back (vec d) else vec d in
  {| capacity := capacity d; vec := value :: v |}.

Definition push_back (d : CircularVecDeque) (value : T) : CircularVecDeque :=
  let v := if is_full d then vd_pop_front (vec d) else vec d in
  {| capacity := capacity d; vec := v ++ [value] |}.

Definition pop_front (d : CircularVecDeque) : option T * CircularVecDeque :=
  match vec d with
  | [] => (None, d)
  | x :: l => (Some x, {| capacity := capacity d; vec := l |})
  end.

Definition pop_back (d : CircularVecDeque) : option T * CircularVecDeque :=
  match rev (vec d) with
  | [] => (None, d)
  | x :: l => (Some x, {| capacity := capacity d; vec := rev l |})
  end.

(** [self.vec.get_mut(i).unwrap()] followed by [f] on the element:
    [f] is a (possibly stateful, [FnMut]) closure with state [S]. *)
Definition get_mut_apply {St : Type} (f : St -> T -> St * T) (st : St)
    (l : list T) (i : nat) : outcome (St * list T) :=
  match nth_error l i with
  | None => Panic
  | Some x =>
      let '(st', x') := f st x in
      Ret (st', firstn i l ++ x' :: skipn (S i) l)
  end.

(** [for i in start..len { f(self.vec.get_mut(i).unwrap()); }] *)
Fixpoint for_range {St : Type} (f : St -> T -> St * T) (i cnt : nat)
    (st : St) (l : list T) : outcome (St * list T) :=
  match cnt with
  | 0 => Ret (st, l)
  | S cnt' =>
      r <- get_mut_apply f st l i ;;
      for_range f (S i) cnt' (fst r) (snd r)
  end.

Definition with_last_n_elems {St : Type} (d : CircularVecDeque) (n : nat)
    (f : St -> T -> St * T) (st : St) : outcome (St * CircularVecDeque) :=
  let len := len d in
  let start := len - n in
  r <- for_range f start (len - start) st (vec d) ;;
  Ret (fst r, {| capacity := capacity d; vec := snd r |}).

Definition with_last_nth_elem {St : Type} (d : CircularVecDeque) (n : nat)
    (f : St -> T -> St * T) (st : St) : outcome (St * CircularVecDeque) :=
  let len := len d in
  if n <? len then
    r <- get_mut_apply f st (vec d) (len - n - 1) ;;
    Ret (fst r, {| capacity := capacity d; vec := snd r |})
  else Ret (st, d).

(** Reference reading of "apply [f] to each element of [l] in increasing
    index order", threading the closure's state. *)
Fixpoint apply_in_order {St : Type} (f : St -> T -> St * T) (st : St) (l : list T)
    : St * list T :=
  match l with
  | [] => (st, [])
  | a :: l' =>
      let '(st1, b) := f st a in
      let '(st2, bs) := apply_in_order f st1 l' in
      (st2, b :: bs)
  end.

Definition is_empty (d : CircularVecDeque) : bool := len d =? 0.

Definition get (d : CircularVecDeque) (index : nat) : option T := nth_error (vec d) index.

(** [VecDeque::back] is [self.get(self.len.wrapping_sub(1))]: on an empty
    deque the index wraps to [usize::MAX], which is out of bounds. *)
Definition last (d : CircularVecDeque) : option T :=
  if len d =? 0 then None else get d (len d - 1).

(** A sequence of calls of the mutating API, for stating invariants over
    every such sequence; the popped values are dropped. *)
Inductive op := PushFront (v : T) | PushBack (v : T) | PopFront | PopBack.

Definition apply_op (d : CircularVecDeque) (o : op) : CircularVecDeque :=
  match o with
  | PushFront v => push_front d v
  | PushBack v => push_back d v
  | PopFront => snd (pop_front d)
  | PopBack => snd (pop_back d)
  end.

Definition run_ops (d : CircularVecDeque) (ops : list op) : CircularVecDeque :=
  fold_left apply_op ops d.

End CircularVec.
Arguments is_empty {T} d.
Arguments get {T} d index.
Arguments last {T} d.
Arguments PushFront {T} v.
Arguments PushBack {T} v.
Arguments PopFront {T}.
Arguments PopBack {T}.
Arguments apply_op {T} d o.
Arguments run_ops {T} d ops.
Arguments capacity {T} c.
Arguments vec {T} c.
Arguments new {T} cap.
Arguments len {T} d.
Arguments is_full {T} d.
Arguments push_front {T} d value.
Arguments push_back {T} d value.
Arguments pop_front {T} d.
Arguments pop_back {T} d.
Arguments with_last_n_elems {T St} d n f st.
Arguments with_last_nth_elem {T St} d n f st.
Arguments get_mut_apply {T St} f st l i.
Arguments for_range {T St} f i cnt st l.
Arguments apply_in_order {T St} f st l.
End CircularVec.

(* ================================================================== *)
(** ** Derived layout of [init_frp] (the [eval size_update] observer) *)

Module Layout.
Section Layout.
(** [f32] arithmetic and the constants of the graph editor are kept
    abstract: the observer is stated for any deterministic arithmetic. *)
Variable f32 : Type.
Variable add : f32 -> f32 -> f32.
Variable div : f32 -> f32 -> f32.
Variable two : f32.
Variable MACOS_TRAFFIC_LIGHTS_VERTICAL_CENTER : f32.
Variable TOP_BAR_ITEM_MARGIN : f32.
Variable breadcrumbs_HEIGHT : f32.
Variable traffic_lights_gap_width : unit -> f32.

Record Vector2 := { x : f32; y : f32 }.

(** The geometry written by the observer into the model. *)
Record geometry := {
  selector_x : f32;
  selector_y : f32;
  breadcrumbs_gap_width : f32;
  breadcrumbs_y : f32
}.

(** The body of [eval size_update ([model]((_,size,gap_size)) { ... })]. *)
Definition size_update_observer (input : unit * Vector2 * Vector2)
    (model : geometry) : geometry :=
  let '(_, size, gap_size) := input in
  let y_offset := MACOS_TRAFFIC_LIGHTS_VERTICAL_CENTER in
  let traffic_light_width := traffic_lights_gap_width tt in
  let execution_environment_selector_x := add (x gap_size) traffic_light_width in
  let model := {| selector_x := execution_environment_selector_x;
                  selector_y := selector_y model;
                  breadcrumbs_gap_width := breadcrumbs_gap_width model;
                  breadcrumbs_y := breadcrumbs_y model |} in
  let breadcrumb_gap_width :=
    add (add execution_environment_selector_x (x size)) TOP_BAR_ITEM_MARGIN in
  let model := {| selector_x := selector_x model;
                  selector_y := selector_y model;
                  breadcrumbs_gap_width := breadcrumb_gap_width;
                  breadcrumbs_y := breadcrumbs_y model |} in
  let model := {| selector_x := selector_x model;
                  selector_y := add y_offset (div (y size) two);
                  breadcrumbs_gap_width := breadcrumbs_gap_width model;
                  breadcrumbs_y := breadcrumbs_y model |} in
  {| selector_x := selector_x model;
     selector_y := selector_y model;
     breadcrumbs_gap_width := breadcrumbs_gap_width model;
     breadcrumbs_y := add y_offset (div breadcrumbs_HEIGHT two) |}.

End Layout.
End Layout.

(* ================================================================== *)
(** ** The FRP propagation engine *)

(** Modelled from the spec: the enso-frp library ([frp::extend!], [all],
    [any], [sample], [map], [unwrap], [source], [<+]) is not among the
    embedded sources.  Following the spec (sections 3, 4.2-4.4), a network
    is the list of its nodes in declaration order; an event at a source
    triggers one pass evaluating every node once, in declaration order
    (a topological order, since a node only names earlier nodes), each
    node reading the values of its upstreams already updated in this pass.
    The sanctioned feedback edge is a one-event delay ([Prev]): it reads
    the value another node had at the end of the previous pass. *)
Module Frp.
Section Engine.
Variable V : Type.

Inductive node : Type :=
| Source
| Map (f : V -> V) (u : nat)
| FilterMap (f : V -> option V) (u : nat)
| Sample (data trigger : nat)
| Any (us : list nat)
| All (combine : list V -> V) (us : list nat)
| Prev (u : nat).

(** Current value of every node ([None] until its first firing) and
    whether it fired in the last pass. *)
Record state := { vals : nat -> option V; fired : nat -> bool }.

Definition init : state := {| vals := fun _ => None; fired := fun _ => false |}.

(** The value node [u] produced in the current pass, if it fired. *)
Definition emitted (cur : state) (u : nat) : option V :=
  if fired cur u then vals cur u else None.

(** [any]: the first upstream, in declaration order, that fired. *)
Fixpoint first_emitted (cur : state) (us : list nat) : option V :=
  match us with
  | [] => None
  | u :: us' =>
      match emitted cur u with
      | Some x => Some x
      | None => first_emitted cur us'
      end
  end.

Fixpoint all_some (l : list (option V)) : option (list V) :=
  match l with
  | [] => Some []
  | None :: _ => None
  | Some x :: l' => option_map (cons x) (all_some l')
  end.

(** A node fires with [Some y], or keeps its previous value. *)
Definition fire (out keep : option V) : option V * bool :=
  match out with
  | Some y => (Some y, true)
  | None => (keep, false)
  end.

(** What node [k] emits in this pass ([None]: it does not fire), from the
    state [old] before the pass and the values [cur] already computed in
    this pass. *)
Definition node_out (old cur : state) (src : nat) (v : V) (k : nat) (n : node)
    : option V :=
  match n with
  | Source => if k =? src then Some v else None
  | Map f u => option_map f (emitted cur u)
  | FilterMap f u => match emitted cur u with Some a => f a | None => None end
  | Sample d t => match emitted cur t with Some _ => vals cur d | None => None end
  | Any us => first_emitted cur us
  | All c us =>
      if existsb (fired cur) us then option_map c (all_some (map (vals cur) us)) else None
  | Prev u => if fired old u then vals old u else None
  end.

Definition eval_node (old cur : state) (src : nat) (v : V) (k : nat) (n : node)
    : option V * bool :=
  fire (node_out old cur src v k n) (vals old k).

Definition upd (cur : state) (k : nat) (r : option V * bool) : state :=
  {| vals := fun j => if j =? k then fst r else vals cur j;
     fired := fun j => if j =? k then snd r else fired cur j |}.

Fixpoint pass_from (old : state) (src : nat) (v : V) (k : nat) (ns : list node)
    (cur : state) : state :=
  match ns with
  | [] => cur
  | n :: ns' => pass_from old src v (S k) ns' (upd cur k (eval_node old cur src v k n))
  end.

(** One propagation pass for the emission of [v] at source [src]. *)
Definition pass (net : list node) (s : state) (src : nat) (v : V) : state :=
  pass_from s src v 0 net {| vals := vals s; fired := fun _ => false |}.

Fixpoint run (net : list node) (s : state) (evs : list (nat * V)) : state :=
  match evs with
  | [] => s
  | (src, v) :: evs' => run net (pass net s src v) evs'
  end.

(** Whether node [u] fired in some pass of [evs]. *)
Fixpoint ever_fired (net : list node) (s : state) (evs : list (nat * V)) (u : nat) : bool :=
  match evs with
  | [] => false
  | (src, v) :: evs' =>
      let s' := pass net s src v in
      fired s' u || ever_fired net s' evs' u
  end.

Definition node_refs (n : node) : list nat :=
  match n with
  | Source | Prev _ => []
  | Map _ u | FilterMap _ u => [u]
  | Sample d t => [d; t]
  | Any us | All _ us => us
  end.

(** Construction-time check: a node names only nodes declared before it
    (feedback goes through [Prev]). *)
Definition wf (net : list node) : Prop :=
  forall k n, nth_error net k = Some n -> Forall (fun u => u < k) (node_refs n).

Fixpoint wfb_from (k : nat) (ns : list node) : bool :=
  match ns with
  | [] => true
  | n :: ns' => forallb (fun u => u <? k) (node_refs n) && wfb_from (S k) ns'
  end.

End Engine.
Arguments Source {V}.
Arguments Map {V} f u.
Arguments FilterMap {V} f u.
Arguments Sample {V} data trigger.
Arguments Any {V} us.
Arguments All {V} combine us.
Arguments Prev {V} u.
Arguments init {V}.
Arguments vals {V} s _.
Arguments fired {V} s _.
Arguments emitted {V} cur u.
Arguments first_emitted {V} cur us.
Arguments all_some {V} l.
Arguments fire {V} out keep.
Arguments node_out {V} old cur src v k n.
Arguments eval_node {V} old cur src v k n.
Arguments upd {V} cur k r.
Arguments pass_from {V} old src v k ns cur.
Arguments pass {V} net s src v.
Arguments run {V} net s evs.
Arguments ever_fired {V} net s evs u.
Arguments node_refs {V} n.
Arguments wf {V} net.
Arguments wfb_from {V} k ns.
End Frp.

(* ================================================================== *)
(** ** The network built by [init_frp] *)

Module ExecEnv.
Import Frp.
Section Network.
Variable f32 : Type.

(** Values carried by the streams of [init_frp]. *)
Inductive value : Type :=
| VUnit
| VEnv (e : ExecutionEnvironment)
| VEnvs (l : list ExecutionEnvironment)
| VOptEnv (o : option ExecutionEnvironment)
| VVector2 (x y : f32)
| VTuple (l : list value).

(** [.map(|env| ( *env).into())]: the conversion of the graph editor's
    execution environment into the selector's. *)
Definition into (v : value) : value := v.

(** [.map(|(mode,available)| get_next_execution_environment(mode,available))].
    A panic of the closure would abort the program; the C8 lemma shows that
    [get_next_execution_environment] never panics. *)
Definition toggled_map (v : value) : value :=
  match v with
  | VTuple [VEnv mode; VEnvs available] =>
      match get_next_execution_environment mode available with
      | Ret o => VOptEnv o
      | Panic => VOptEnv None
      end
  | _ => VOptEnv None
  end.

(** [.unwrap()] on a stream of options: forwards [Some] payloads only. *)
Definition unwrap (v : value) : option value :=
  match v with
  | VOptEnv (Some e) => Some (VEnv e)
  | _ => None
  end.

(** Node indices, in declaration order. *)
Definition set_available_execution_environments := 0.
Definition set_execution_environment := 1.
Definition toggle_execution_environment := 2.
Definition selector_selected_execution_environment := 3.
Definition out_execution_environment_prev := 4.
Definition selected_execution_environment := 5.
Definition execution_environment_state := 6.
Definition execution_environment_toggled := 7.
Definition toggled_next := 8.
Definition toggled_execution_environment := 9.
Definition external_execution_environment_update := 10.
Definition execution_environment_update := 11.
Definition out_execution_environment := 12.
Definition init_source := 13.
Definition selector_size := 14.
Definition space_for_window_buttons := 15.
Definition size_update := 16.

(** The network of [init_frp].  Sources [0]-[3] are the FRP inputs and the
    selector's own output [selected_execution_environment] (an external
    component); [13]-[15] are [init], the selector's [size] and
    [space_for_window_buttons].  [out.execution_environment] ([12]) is fed
    by [execution_environment_update] ([out.execution_environment <+ ...]);
    its read in [all(out.execution_environment, ...)] is the feedback edge,
    a one-event delay ([4]). *)
Definition network : list (node value) :=
  [ (* 0 *) Source;
    (* 1 *) Source;
    (* 2 *) Source;
    (* 3 *) Source;
    (* 4 *) Prev out_execution_environment;
    (* 5 *) Map into set_execution_environment;
    (* 6 *) All VTuple [out_execution_environment_prev; set_available_execution_environments];
    (* 7 *) Sample execution_environment_state toggle_execution_environment;
    (* 8 *) Map toggled_map execution_environment_toggled;
    (* 9 *) FilterMap unwrap toggled_next;
    (* 10 *) Any [selected_execution_environment; toggled_execution_environment];
    (* 11 *) Any [selector_selected_execution_environment;
                  external_execution_environment_update];
    (* 12 *) Any [execution_environment_update];
    (* 13 *) Source;
    (* 14 *) Source;
    (* 15 *) Source;
    (* 16 *) All VTuple [init_source; selector_size; space_for_window_buttons] ].

(** External events of the network. *)
Inductive event : Type :=
| SetAvailableExecutionEnvironments (l : list ExecutionEnvironment)
| SetExecutionEnvironment (e : ExecutionEnvironment)
| ToggleExecutionEnvironment
| SelectorSelected (e : ExecutionEnvironment)
| Init
| SelectorSize (x y : f32)
| SpaceForWindowButtons (x y : f32).

Definition emission (ev : event) : nat * value :=
  match ev with
  | SetAvailableExecutionEnvironments l => (set_available_execution_environments, VEnvs l)
  | SetExecutionEnvironment e => (set_execution_environment, VEnv e)
  | ToggleExecutionEnvironment => (toggle_execution_environment, VUnit)
  | SelectorSelected e => (selector_selected_execution_environment, VEnv e)
  | Init => (init_source, VUnit)
  | SelectorSize x y => (selector_size, VVector2 x y)
  | SpaceForWindowButtons x y => (space_for_window_buttons, VVector2 x y)
  end.

Definition step (s : state value) (ev : event) : state value :=
  pass network s (fst (emission ev)) (snd (emission ev)).

Fixpoint run_events (s : state value) (evs : list event) : state value :=
  match evs with
  | [] => s
  | ev :: evs' => run_events (step s ev) evs'
  end.

(** The state after [init_frp]: the network is built, then [init.emit(())]. *)
Definition initial : state value := step init Init.

(** The authoritative execution environment [out.execution_environment]. *)
Definition authoritative (s : state value) : option value := vals s out_execution_environment.

Definition available (s : state value) : option value :=
  vals s set_available_execution_environments.

Definition is_geometry (ev : event) : bool :=
  match ev with
  | Init | SelectorSize _ _ | SpaceForWindowButtons _ _ => true
  | _ => false
  end.

(** The recurrence of the spec (4.3), following its words:
    [state[t] = merge(external_selection[t], next(state[t-1], toggle[t]))];
    a toggle without a next value leaves the state unchanged. *)
Definition spec_recurrence (prev avail : option value) (ev : event) : option value :=
  match ev with
  | SetExecutionEnvironment e | SelectorSelected e => Some (VEnv e)
  | ToggleExecutionEnvironment =>
      match prev, avail with
      | Some (VEnv m), Some (VEnvs l) =>
          match get_next_execution_environment m l with
          | Ret (Some n) => Some (VEnv n)
          | _ => prev
          end
      | _, _ => prev
      end
  | _ => prev
  end.

(** Invariant of the states reachable from the built network: a node that
    fired holds a value; the delayed copy [4] of [out.execution_environment]
    has caught up with it unless it changed in the last pass; and
    [execution_environment_state] holds the pair of its upstreams' values
    once both have one, and has no value before. *)
Definition reachable_invariant (s : state value) : Prop :=
  (forall k, fired s k = true -> vals s k <> None) /\
  (fired s out_execution_environment = false ->
     vals s out_execution_environment_prev = vals s out_execution_environment) /\
  (forall x4 x0, vals s out_execution_environment_prev = Some x4 ->
     vals s set_available_execution_environments = Some x0 ->
     vals s execution_environment_state = Some (VTuple [x4; x0])) /\
  (vals s execution_environment_state <> None ->
     vals s out_execution_environment_prev <> None /\
     vals s set_available_execution_environments <> None).

End Network.
Arguments VUnit {f32}.
Arguments VEnv {f32} e.
Arguments VEnvs {f32} l.
Arguments VOptEnv {f32} o.
Arguments VVector2 {f32} x y.
Arguments VTuple {f32} l.
Arguments into {f32} v.
Arguments toggled_map {f32} v.
Arguments unwrap {f32} v.
Arguments network {f32}.
Arguments SetAvailableExecutionEnvironments {f32} l.
Arguments SetExecutionEnvironment {f32} e.
Arguments ToggleExecutionEnvironment {f32}.
Arguments SelectorSelected {f32} e.
Arguments Init {f32}.
Arguments SelectorSize {f32} x y.
Arguments SpaceForWindowButtons {f32} x y.
Arguments emission {f32} ev.
Arguments step {f32} s ev.
Arguments run_events {f32} s evs.
Arguments initial {f32}.
Arguments authoritative {f32} s.
Arguments available {f32} s.
Arguments is_geometry {f32} ev.
Arguments spec_recurrence {f32} prev avail ev.
Arguments reachable_invariant {f32} s.
End ExecEnv.

(* ================================================================== *)
(** * Proofs *)

(* ------------------------------------------------------------------ *)
(** ** [get_next_execution_environment] *)

Section NextEnvironment.

Lemma position_none (c : ExecutionEnvironment) (l : list ExecutionEnvironment) :
  position (fun mode => String.eqb mode c) l = None <-> ~ In c l.
Proof.
  induction l as [|a l IH]; cbn; [tauto|].
  destruct (String.eqb_spec a c) as [->|Hne]; cbn.
  - split; [discriminate|]. intros H; exfalso; apply H; auto.
  - destruct (position (fun mode => String.eqb mode c) l) eqn:E; cbn.
    + split; [discriminate|]. intros H; exfalso; apply H; right.
      destruct (In_dec String.string_dec c l) as [Hin|Hin]; [exact Hin|].
      apply IH in Hin. congruence.
    + split; [|reflexivity]. intros _ [->|Hin]; [congruence|]. apply IH; auto.
Qed.

Lemma position_lt (p : ExecutionEnvironment -> bool) (l : list ExecutionEnvironment) (i : nat) :
  position p l = Some i -> i < List.length l.
Proof.
  revert i; induction l as [|a l IH]; cbn; intros i H; [discriminate|].
  destruct (p a); [injection H as <-; lia|].
  destruct (position p l) eqn:E; cbn in H; [|discriminate].
  injection H as <-. specialize (IH n eq_refl). lia.
Qed.

Lemma position_first (c : ExecutionEnvironment) (pre post : list ExecutionEnvironment) :
  ~ In c pre ->
  position (fun mode => String.eqb mode c) (pre ++ c :: post) = Some (List.length pre).
Proof.
  induction pre as [|a pre IH]; cbn; intros Hn.
  - rewrite String.eqb_refl. reflexivity.
  - destruct (String.eqb_spec a c) as [->|Hne]; [exfalso; apply Hn; auto|].
    rewrite IH; [reflexivity|]. intros Hin; apply Hn; auto.
Qed.

Lemma get_next_found (c : ExecutionEnvironment) (av : list ExecutionEnvironment) (index : nat) :
  position (fun mode => String.eqb mode c) av = Some index ->
  exists x, nth_error av ((index + 1) mod List.length av) = Some x /\
            get_next_execution_environment c av = Ret (Some x).
Proof.
  intros Hpos. pose proof (position_lt _ _ _ Hpos) as Hlt.
  unfold get_next_execution_environment, usize_rem, slice_index. rewrite Hpos.
  destruct (List.length av =? 0) eqn:E0; [apply Nat.eqb_eq in E0; lia|]. cbn.
  destruct (nth_error av ((index + 1) mod List.length av)) as [x|] eqn:Ex.
  - exists x; split; reflexivity.
  - apply nth_error_None in Ex. pose proof (Nat.mod_upper_bound (index + 1) (List.length av)). lia.
Qed.

End NextEnvironment.

(** C2: the "next option" policy.  A current value absent from [available]
    yields no result; otherwise the result is the option at
    [(index_of(current) + 1) mod length], [index_of] being the first
    occurrence; it wraps, also for a single option; on
    [make_entries = [Design; Live]] it alternates. *)
Theorem get_next_execution_environment_wraps (current : ExecutionEnvironment)
    (available : list ExecutionEnvironment) :
  (~ In current available -> get_next_execution_environment current available = Ret None) /\
  (forall pre post, available = pre ++ current :: post -> ~ In current pre ->
     exists x, nth_error available ((List.length pre + 1) mod List.length available) = Some x /\
               get_next_execution_environment current available = Ret (Some x)) /\
  get_next_execution_environment current [current] = Ret (Some current) /\
  get_next_execution_environment Design make_entries = Ret (Some Live) /\
  get_next_execution_environment Live make_entries = Ret (Some Design).
Proof.
  split; [|split; [|split; [|split]]].
  - intros Hn. unfold get_next_execution_environment.
    apply position_none in Hn. rewrite Hn. reflexivity.
  - intros pre post -> Hn. apply get_next_found. apply position_first; exact Hn.
  - unfold get_next_execution_environment. cbn. rewrite String.eqb_refl. reflexivity.
  - reflexivity.
  - reflexivity.
Qed.

Lemma get_next_execution_environment_wraps_witness :
  get_next_execution_environment "Staging"%string make_entries = Ret None /\
  exists x, nth_error make_entries ((List.length [Design] + 1) mod List.length make_entries) = Some x /\
            get_next_execution_environment Live make_entries = Ret (Some x).
Proof.
  split.
  - apply (proj1 (get_next_execution_environment_wraps "Staging"%string make_entries)).
    cbn. intros [H|[H|H]]; [discriminate|discriminate|exact H].
  - apply (proj1 (proj2 (get_next_execution_environment_wraps Live make_entries)) [Design] []).
    + reflexivity.
    + cbn. intros [H|H]; [discriminate|exact H].
Defined.

(** C8: [get_next_execution_environment] never panics: the remainder by
    [available.len()] is only taken once [position] found an index, so the
    slice is non-empty; the index [(index + 1) % len] is in bounds; and the
    result is [Some] exactly when [current] occurs in [available]. *)
Theorem get_next_execution_environment_total (current : ExecutionEnvironment)
    (available : list ExecutionEnvironment) :
  (forall index, position (fun mode => String.eqb mode current) available = Some index ->
     List.length available <> 0 /\ (index + 1) mod List.length available < List.length available) /\
  exists o, get_next_execution_environment current available = Ret o /\
            (o <> None <-> In current available).
Proof.
  split.
  - intros index Hpos. pose proof (position_lt _ _ _ Hpos).
    split; [lia|]. apply Nat.mod_upper_bound. lia.
  - destruct (position (fun mode => String.eqb mode current) available) as [index|] eqn:Hpos.
    + destruct (get_next_found _ _ _ Hpos) as [x [_ Hx]].
      exists (Some x). split; [exact Hx|]. split; [intros _|discriminate].
      destruct (In_dec String.string_dec current available) as [Hin|Hin]; [exact Hin|].
      apply position_none in Hin. congruence.
    + exists None. split.
      * unfold get_next_execution_environment. rewrite Hpos. reflexivity.
      * split; [intros H; contradiction H; reflexivity|].
        intros Hin. apply position_none in Hpos. contradiction.
Qed.

Lemma get_next_execution_environment_total_witness :
  (List.length make_entries <> 0 /\ (1 + 1) mod List.length make_entries < List.length make_entries) /\
  exists o, get_next_execution_environment Live make_entries = Ret o /\
            (o <> None <-> In Live make_entries).
Proof.
  split.
  - apply (proj1 (get_next_execution_environment_total Live make_entries) 1). reflexivity.
  - exact (proj2 (get_next_execution_environment_total Live make_entries)).
Defined.

(* ------------------------------------------------------------------ *)
(** ** [CircularVecDeque] *)

Module CircularVecFacts.
Import CircularVec.

Lemma firstn_length_app {A : Type} (a l : list A) : firstn (List.length a) (a ++ l) = a.
Proof. rewrite firstn_app, Nat.sub_diag, firstn_all; cbn. apply app_nil_r. Qed.

Lemma skipn_length_app {A : Type} (a : list A) (y : A) (l : list A) :
  skipn (S (List.length a)) (a ++ y :: l) = l.
Proof.
  rewrite skipn_app, skipn_all2 by lia.
  replace (S (List.length a) - List.length a) with 1 by lia. reflexivity.
Qed.

Lemma for_range_spec {T St : Type} (f : St -> T -> St * T) (b : list T) :
  forall (a c : list T) (st : St),
  for_range f (List.length a) (List.length b) st (a ++ b ++ c) =
  Ret (fst (apply_in_order f st b), a ++ snd (apply_in_order f st b) ++ c).
Proof.
  induction b as [|x b IH]; intros a c st; [reflexivity|].
  cbn [List.length for_range app]. unfold get_mut_apply.
  rewrite nth_error_app2, Nat.sub_diag by lia. cbn [nth_error].
  destruct (f st x) as [st1 y] eqn:Hf.
  rewrite firstn_length_app, skipn_length_app. cbn [obind fst snd].
  replace (a ++ y :: b ++ c) with ((a ++ [y]) ++ b ++ c) by (rewrite <- app_assoc; reflexivity).
  replace (S (List.length a)) with (List.length (a ++ [y])) by (rewrite length_app; cbn; lia).
  rewrite IH. cbn [apply_in_order]. rewrite Hf.
  destruct (apply_in_order f st1 b) as [st2 ys]. cbn.
  rewrite <- app_assoc. reflexivity.
Qed.

(** The bound does hold when the capacity is positive. *)
Lemma push_bounded_pos_capacity {T : Type} (d : CircularVecDeque T) (value : T) :
  1 <= capacity d -> len d <= capacity d ->
  len (push_back d value) <= capacity (push_back d value) /\
  len (push_front d value) <= capacity (push_front d value) /\
  (is_full d = true -> len (push_back d value) = capacity d /\
                       len (push_front d value) = capacity d).
Proof.
  destruct d as [cap v]. unfold len, is_full, push_back, push_front; cbn. intros H1 H2.
  destruct (List.length v =? cap) eqn:E.
  - apply Nat.eqb_eq in E. unfold vd_pop_back, vd_pop_front.
    rewrite length_app, removelast_firstn_len. cbn [List.length]. rewrite length_firstn.
    destruct v as [|a v]; cbn in *; [lia|]. repeat split; lia.
  - apply Nat.eqb_neq in E. rewrite length_app; cbn. repeat split; try lia; discriminate.
Qed.

(** C9 (defect): with capacity [0], [is_full] holds on the empty deque, the
    pop of the empty deque removes nothing and the push still adds the
    element, so the length exceeds the capacity; the deque is then never
    full again and grows without bound. *)
Theorem push_capacity_zero_exceeds {T : Type} (value : T) :
  let d := push_back (new 0) value in
  is_full (@new T 0) = true /\ len d = 1 /\ capacity d = 0 /\
  len (push_back d value) = 2 /\ len (push_front (@new T 0) value) = 1.
Proof. repeat split. Qed.

(** C10: [with_last_n_elems] applies [f] to exactly the last
    [min(n, len)] elements, in increasing index order, and never panics;
    [with_last_nth_elem] applies [f] exactly when [len > n], to the element
    at [len - n - 1], and never panics. *)
Theorem with_last_elems_in_bounds {T St : Type} (d : CircularVecDeque T) (n : nat)
    (f : St -> T -> St * T) (st : St) :
  (let start := len d - Nat.min n (len d) in
   List.length (skipn start (vec d)) = Nat.min n (len d) /\
   with_last_n_elems d n f st =
     Ret (fst (apply_in_order f st (skipn start (vec d))),
          {| capacity := capacity d;
             vec := firstn start (vec d) ++ snd (apply_in_order f st (skipn start (vec d))) |})) /\
  (n < len d -> exists x, nth_error (vec d) (len d - n - 1) = Some x /\
     with_last_nth_elem d n f st =
       Ret (fst (f st x),
            {| capacity := capacity d;
               vec := firstn (len d - n - 1) (vec d) ++ snd (f st x) :: skipn (len d - n) (vec d) |})) /\
  (len d <= n -> with_last_nth_elem d n f st = Ret (st, d)).
Proof.
  destruct d as [cap v]. unfold len; cbn [vec capacity].
  split; [|split].
  - replace (List.length v - Nat.min n (List.length v)) with (List.length v - n) by lia.
    split; [rewrite length_skipn; lia|].
    unfold with_last_n_elems, len; cbn [vec capacity].
    pose proof (for_range_spec f (skipn (List.length v - n) v)
                  (firstn (List.length v - n) v) [] st) as H.
    rewrite length_firstn, length_skipn, app_nil_r, firstn_skipn, app_nil_r in H.
    replace (Nat.min (List.length v - n) (List.length v)) with (List.length v - n) in H by lia.
    rewrite H. reflexivity.
  - intros Hlt. unfold with_last_nth_elem, len; cbn [vec capacity].
    destruct (nth_error v (List.length v - n - 1)) as [x|] eqn:Ex;
      [|apply nth_error_None in Ex; lia].
    exists x. split; [reflexivity|].
    apply Nat.ltb_lt in Hlt. rewrite Hlt. unfold get_mut_apply. rewrite Ex.
    destruct (f st x) as [st' x']. cbn [obind fst snd].
    replace (S (List.length v - n - 1)) with (List.length v - n) by (apply Nat.ltb_lt in Hlt; lia).
    reflexivity.
  - intros Hle. unfold with_last_nth_elem, len; cbn [vec].
    replace (n <? List.length v) with false by (symmetry; apply Nat.ltb_ge; exact Hle).
    reflexivity.
Qed.

Lemma with_last_elems_in_bounds_witness :
  exists x, nth_error [10; 20; 30] (3 - 1 - 1) = Some x /\
    with_last_nth_elem {| capacity := 3; vec := [10; 20; 30] |} 1 (fun st a => (st + a, a + 1)) 0 =
      Ret (fst (0 + x, x + 1),
           {| capacity := 3; vec := firstn (3 - 1 - 1) [10; 20; 30] ++ snd (0 + x, x + 1)
                                      :: skipn (3 - 1) [10; 20; 30] |}).
Proof.
  exact (proj1 (proj2 (with_last_elems_in_bounds {| capacity := 3; vec := [10; 20; 30] |} 1
                          (fun st a => (st + a, a + 1)) 0)) ltac:(cbv; lia)).
Defined.

End CircularVecFacts.

(* ================================================================== *)
(** ** Further properties of [CircularVecDeque] *)

Module CircularVecMore.
Import CircularVec CircularVecFacts.

Section Deque.
Context {T : Type}.
Implicit Types (d : CircularVecDeque T) (v : T).

Lemma apply_op_capacity d o : capacity (apply_op d o) = capacity d.
Proof.
  destruct d as [cap l], o as [v|v| |]; cbn; try reflexivity.
  - unfold pop_front; cbn. destruct l; reflexivity.
  - unfold pop_back; cbn. destruct (rev l); reflexivity.
Qed.

Lemma apply_op_bounded d o :
  1 <= capacity d -> len d <= capacity d -> len (apply_op d o) <= capacity (apply_op d o).
Proof.
  intros H1 H2. destruct o as [v|v| |].
  - apply (push_bounded_pos_capacity d v H1 H2).
  - apply (push_bounded_pos_capacity d v H1 H2).
  - destruct d as [cap l]; cbn [apply_op]; unfold len, pop_front in *; cbn in *. destruct l; cbn in *; lia.
  - destruct d as [cap l]; cbn [apply_op]; unfold len, pop_back in *; cbn in *.
    destruct (rev l) as [|x r] eqn:E; cbn; [lia|].
    rewrite length_rev. apply (f_equal (@List.length T)) in E.
    rewrite length_rev in E. cbn in E. lia.
Qed.

Lemma run_ops_bounded d ops :
  1 <= capacity d -> len d <= capacity d ->
  capacity (run_ops d ops) = capacity d /\ len (run_ops d ops) <= capacity d.
Proof.
  revert d; induction ops as [|o ops IH]; intros d H1 H2; [split; [reflexivity|exact H2]|].
  unfold run_ops; cbn [fold_left]. fold (run_ops (apply_op d o) ops).
  pose proof (apply_op_bounded d o H1 H2) as Hb.
  assert (H1' : 1 <= capacity (apply_op d o)) by (rewrite apply_op_capacity; exact H1).
  destruct (IH _ H1' Hb) as [Hc Hl]. rewrite apply_op_capacity in Hc, Hl.
  split; assumption.
Qed.

Lemma push_back_vec d v :
  1 <= capacity d -> len d <= capacity d ->
  vec (push_back d v) = skipn (List.length (vec d ++ [v]) - capacity d) (vec d ++ [v]).
Proof.
  destruct d as [cap l]; unfold len, push_back, is_full, len; cbn. intros H1 H2.
  rewrite length_app; cbn.
  destruct (List.length l =? cap) eqn:E.
  - apply Nat.eqb_eq in E. replace (List.length l + 1 - cap) with 1 by lia.
    destruct l as [|a l]; cbn in *; [lia|reflexivity].
  - apply Nat.eqb_neq in E. replace (List.length l + 1 - cap) with 0 by lia. reflexivity.
Qed.

Lemma push_front_vec d v :
  1 <= capacity d -> len d <= capacity d ->
  vec (push_front d v) = firstn (capacity d) (v :: vec d).
Proof.
  destruct d as [cap l]; unfold len, push_front, is_full, len, vd_pop_back; cbn. intros H1 H2.
  destruct (List.length l =? cap) eqn:E.
  - apply Nat.eqb_eq in E. subst cap. rewrite removelast_firstn_len.
    destruct (List.length l) as [|n] eqn:En; [lia|]. cbn. rewrite ?Nat.sub_0_r. reflexivity.
  - apply Nat.eqb_neq in E. rewrite firstn_all2; [reflexivity|cbn; lia].
Qed.

Lemma firstn_app_firstn {A : Type} (c : nat) (a b : list A) :
  firstn c (a ++ firstn c b) = firstn c (a ++ b).
Proof.
  rewrite !firstn_app, firstn_firstn. f_equal. f_equal. lia.
Qed.

End Deque.

(** For any positive capacity, every sequence of [push_front],
    [push_back], [pop_front] and [pop_back] calls on [new(capacity)] keeps
    the length within the capacity, and never changes the capacity. *)
Theorem run_ops_len_bounded {T : Type} (cap : nat) (ops : list (op T)) :
  1 <= cap ->
  capacity (run_ops (new cap) ops) = cap /\ len (run_ops (new cap) ops) <= cap.
Proof.
  intros H. apply (run_ops_bounded (new cap) ops H). cbn. lia.
Qed.

(** Pushing the values [xs] one by one with [push_back] into [new(capacity)]
    (capacity at least 1) leaves exactly the last [capacity] of them, oldest
    first: the deque is a sliding window over the pushed values. *)
Theorem push_back_sliding_window {T : Type} (cap : nat) (xs : list T) :
  1 <= cap ->
  vec (fold_left push_back xs (new cap)) = skipn (List.length xs - cap) xs.
Proof.
  intros H1.
  assert (G : forall d, capacity d = cap -> len d <= cap ->
            vec (fold_left push_back xs d) = skipn (List.length (vec d ++ xs) - cap) (vec d ++ xs)).
  { induction xs as [|x xs IH]; intros d Hc Hl.
    - cbn. rewrite app_nil_r. unfold len in Hl.
      replace (List.length (vec d) - cap) with 0 by lia. reflexivity.
    - cbn [fold_left]. pose proof (push_bounded_pos_capacity d x) as Hb.
      rewrite Hc in Hb. destruct (Hb H1 Hl) as [Hb' _].
      assert (Hc' : capacity (push_back d x) = cap) by (rewrite <- Hc; reflexivity).
      rewrite Hc' in Hb'. rewrite (IH _ Hc' Hb').
      rewrite push_back_vec by lia. rewrite Hc.
      unfold len in Hl. set (A := vec d ++ [x]).
      assert (HA : List.length A = S (List.length (vec d))) by (unfold A; rewrite length_app; cbn; lia).
      replace (vec d ++ x :: xs) with (A ++ xs) by (unfold A; rewrite <- app_assoc; reflexivity).
      assert (E : skipn (List.length A - cap) A ++ xs = skipn (List.length A - cap) (A ++ xs))
        by (rewrite skipn_app; replace (List.length A - cap - List.length A) with 0 by lia;
            reflexivity).
      rewrite E, skipn_skipn. f_equal.
      rewrite length_skipn, length_app. lia. }
  rewrite (G (new cap)); cbn; [reflexivity|reflexivity|lia].
Qed.

(** Pushing the values [xs] one by one with [push_front] into
    [new(capacity)] (capacity at least 1) leaves exactly the last
    [capacity] of them, newest first. *)
Theorem push_front_sliding_window {T : Type} (cap : nat) (xs : list T) :
  1 <= cap ->
  vec (fold_left push_front xs (new cap)) = firstn cap (rev xs).
Proof.
  intros H1.
  assert (G : forall d, capacity d = cap -> len d <= cap ->
            vec (fold_left push_front xs d) = firstn cap (rev xs ++ vec d)).
  { induction xs as [|x xs IH]; intros d Hc Hl.
    - cbn. unfold len in Hl. rewrite firstn_all2 by lia. reflexivity.
    - cbn [fold_left]. pose proof (push_bounded_pos_capacity d x) as Hb.
      rewrite Hc in Hb. destruct (Hb H1 Hl) as [_ [Hb' _]].
      assert (Hc' : capacity (push_front d x) = cap) by (rewrite <- Hc; reflexivity).
      rewrite Hc' in Hb'. rewrite (IH _ Hc' Hb').
      rewrite push_front_vec by lia. rewrite Hc, firstn_app_firstn.
      cbn [rev]. rewrite <- app_assoc. reflexivity. }
  rewrite (G (new cap)); cbn; [rewrite app_nil_r; reflexivity|reflexivity|lia].
Qed.

(** Pushing then popping at the same end restores a deque that was not
    full; on a full deque (capacity at least 1) it gives the pushed value
    back and the deque loses the element at the other end, as a pop there
    would. *)
Theorem push_pop_round_trip {T : Type} (d : CircularVecDeque T) (v : T) :
  (is_full d = false ->
     pop_back (push_back d v) = (Some v, d) /\ pop_front (push_front d v) = (Some v, d)) /\
  (is_full d = true -> 1 <= capacity d ->
     pop_back (push_back d v) = (Some v, snd (pop_front d)) /\
     pop_front (push_front d v) = (Some v, snd (pop_back d))).
Proof.
  destruct d as [cap l]. unfold pop_back, pop_front, push_back, push_front, is_full, len; cbn.
  split; intros E.
  - rewrite E, rev_app_distr; cbn. rewrite rev_involutive. split; reflexivity.
  - intros H1. rewrite E. apply Nat.eqb_eq in E.
    destruct l as [|a l0] eqn:El; cbn in E; [lia|]. rewrite <- El. cbn [vd_pop_front].
    split.
    + rewrite El; cbn [vd_pop_front]. rewrite rev_app_distr; cbn. rewrite rev_involutive. reflexivity.
    + unfold vd_pop_back.
      destruct (rev l) as [|z r] eqn:Er.
      * apply (f_equal (@rev T)) in Er. rewrite rev_involutive in Er. cbn in Er. congruence.
      * assert (Hl : l = rev r ++ [z]) by (rewrite <- (rev_involutive l), Er; reflexivity).
        rewrite Hl, removelast_last. reflexivity.
Qed.

Lemma apply_in_order_length {T St : Type} (f : St -> T -> St * T) (st : St) (l : list T) :
  List.length (snd (apply_in_order f st l)) = List.length l.
Proof.
  revert st; induction l as [|a l IH]; intros st; [reflexivity|]. cbn.
  destruct (f st a) as [st1 b]. specialize (IH st1).
  destruct (apply_in_order f st1 l) as [st2 bs]. cbn in *. lia.
Qed.

Lemma replace_at_length {T : Type} (l : list T) (i : nat) (y : T) :
  i < List.length l -> List.length (firstn i l ++ y :: skipn (S i) l) = List.length l.
Proof. intros H. rewrite length_app, length_firstn, length_cons, length_skipn. lia. Qed.

(** Whatever the capacity (also [0]), the value just pushed is the one
    [last] returns after [push_back] and the one at index [0] after
    [push_front], and the deque is no longer empty. *)
Theorem pushed_value_at_its_end {T : Type} (d : CircularVecDeque T) (v : T) :
  last (push_back d v) = Some v /\ is_empty (push_back d v) = false /\
  get (push_front d v) 0 = Some v /\ is_empty (push_front d v) = false.
Proof.
  destruct d as [cap l]. unfold push_back, push_front; cbn [vec capacity].
  generalize (if is_full {| capacity := cap; vec := l |} then vd_pop_front T l else l) as lb.
  generalize (if is_full {| capacity := cap; vec := l |} then vd_pop_back T l else l) as lf.
  intros lf lb. unfold last, get, is_empty, len; cbn [vec].
  rewrite length_app; cbn [List.length].
  replace (List.length lb + 1 =? 0) with false by (symmetry; apply Nat.eqb_neq; lia).
  rewrite Nat.add_sub, nth_error_app2, Nat.sub_diag by lia. repeat split.
Qed.

(** On an empty deque [pop_front], [pop_back] and [last] return [None] and
    the pops leave the deque unchanged; on a non-empty one all three return
    an element. *)
Theorem empty_deque_edge {T : Type} (d : CircularVecDeque T) :
  (is_empty d = true <-> fst (pop_front d) = None) /\
  (is_empty d = true <-> fst (pop_back d) = None) /\
  (is_empty d = true <-> last d = None) /\
  (is_empty d = true -> snd (pop_front d) = d /\ snd (pop_back d) = d).
Proof.
  destruct d as [cap l]. unfold is_empty, last, get, len, pop_front, pop_back;
    cbn [vec capacity fst snd].
  destruct l as [|a l'] eqn:El.
  - cbn. repeat split; reflexivity.
  - assert (Hr : exists z r, rev (a :: l') = z :: r).
    { destruct (rev (a :: l')) as [|z r] eqn:E; [|eauto].
      apply (f_equal (@List.length T)) in E. rewrite length_rev in E. discriminate. }
    destruct Hr as (z & r & Hr). rewrite Hr.
    assert (Hn : exists y, nth_error (a :: l') (List.length (a :: l') - 1) = Some y).
    { destruct (nth_error (a :: l') (List.length (a :: l') - 1)) eqn:E; [eauto|].
      apply nth_error_None in E. cbn in E. lia. }
    destruct Hn as (y & Hn). rewrite Hn.
    replace (List.length (a :: l') =? 0) with false by reflexivity.
    split; [|split; [|split]]; [split; intro; discriminate..|intro; discriminate].
Qed.

(** [with_last_n_elems] and [with_last_nth_elem] change elements in place:
    they never change the length or the capacity (so never whether the deque
    is full); [with_last_nth_elem(0, f)] applies [f] to the element [last]
    returns. *)
Theorem with_last_keeps_shape {T St : Type} (d : CircularVecDeque T) (n : nat)
    (f : St -> T -> St * T) (st : St) :
  (exists st' d', with_last_n_elems d n f st = Ret (st', d') /\
                  capacity d' = capacity d /\ len d' = len d) /\
  (exists st' d', with_last_nth_elem d n f st = Ret (st', d') /\
                  capacity d' = capacity d /\ len d' = len d) /\
  (forall x, last d = Some x ->
     exists d', with_last_nth_elem d 0 f st = Ret (fst (f st x), d') /\
                last d' = Some (snd (f st x))).
Proof.
  destruct d as [cap l]. split; [|split].
  - unfold with_last_n_elems, len; cbn [vec capacity].
    pose proof (for_range_spec f (skipn (List.length l - n) l)
                  (firstn (List.length l - n) l) [] st) as H.
    rewrite length_firstn, length_skipn, app_nil_r, firstn_skipn, app_nil_r in H.
    replace (Nat.min (List.length l - n) (List.length l)) with (List.length l - n) in H by lia.
    replace (List.length l - (List.length l - n)) with (List.length l - (List.length l - n)) by reflexivity.
    rewrite H. cbn [obind]. do 2 eexists. split; [reflexivity|]. split; [reflexivity|].
    unfold len; cbn. rewrite length_app, apply_in_order_length, <- length_app, firstn_skipn.
    reflexivity.
  - unfold with_last_nth_elem, len; cbn [vec capacity].
    destruct (n <? List.length l) eqn:Hlt.
    + apply Nat.ltb_lt in Hlt. unfold get_mut_apply.
      destruct (nth_error l (List.length l - n - 1)) as [x|] eqn:Ex;
        [|apply nth_error_None in Ex; lia].
      destruct (f st x) as [st' y]. cbn [obind fst snd].
      do 2 eexists. split; [reflexivity|]. split; [reflexivity|].
      unfold len; cbn. apply replace_at_length. lia.
    + do 2 eexists. split; [reflexivity|]. split; reflexivity.
  - intros x. unfold with_last_nth_elem, last, get, len; cbn [vec capacity].
    destruct (List.length l =? 0) eqn:E0; [discriminate|]. apply Nat.eqb_neq in E0.
    intros Hx. replace (0 <? List.length l) with true by (symmetry; apply Nat.ltb_lt; lia).
    rewrite Nat.sub_0_r. unfold get_mut_apply. rewrite Hx.
    destruct (f st x) as [st' y]. cbn [obind fst snd].
    eexists. split; [reflexivity|]. cbn [vec].
    rewrite replace_at_length by lia.
    replace (List.length l =? 0) with false by (symmetry; apply Nat.eqb_neq; lia).
    rewrite nth_error_app2; rewrite length_firstn; [|lia].
    replace (List.length l - 1 - Nat.min (List.length l - 1) (List.length l)) with 0 by lia.
    reflexivity.
Qed.

Lemma run_ops_len_bounded_witness :
  1 <= 2 /\
  capacity (run_ops (new 2) [PushBack 1; PushBack 2; PushFront 3; PopBack; PushBack 4; PushBack 5]) = 2 /\
  len (run_ops (new 2) [PushBack 1; PushBack 2; PushFront 3; PopBack; PushBack 4; PushBack 5]) <= 2.
Proof. split; [lia|]. apply run_ops_len_bounded. lia. Defined.

Lemma push_back_sliding_window_witness :
  1 <= 3 /\ vec (fold_left push_back [1; 2; 3; 4; 5] (new 3)) = [3; 4; 5].
Proof.
  split; [lia|]. rewrite (push_back_sliding_window 3 [1; 2; 3; 4; 5]) by lia. reflexivity.
Defined.

Lemma push_front_sliding_window_witness :
  1 <= 3 /\ vec (fold_left push_front [1; 2; 3; 4; 5] (new 3)) = [5; 4; 3].
Proof.
  split; [lia|]. rewrite (push_front_sliding_window 3 [1; 2; 3; 4; 5]) by lia. reflexivity.
Defined.

Lemma push_pop_round_trip_witness :
  let d1 := {| capacity := 3; vec := [1; 2] |} in
  let d2 := {| capacity := 2; vec := [1; 2] |} in
  is_full d1 = false /\ pop_back (push_back d1 9) = (Some 9, d1) /\
  is_full d2 = true /\ 1 <= capacity d2 /\
  pop_front (push_front d2 9) = (Some 9, snd (pop_back d2)).
Proof.
  intros d1 d2.
  assert (H1 : is_full d1 = false) by reflexivity.
  assert (H2 : is_full d2 = true) by reflexivity.
  assert (H3 : 1 <= capacity d2) by (cbn; lia).
  split; [exact H1|split; [exact (proj1 (proj1 (push_pop_round_trip d1 9) H1))|]].
  split; [exact H2|split; [exact H3|]].
  exact (proj2 (proj2 (push_pop_round_trip d2 9) H2 H3)).
Defined.

Lemma empty_deque_edge_witness :
  is_empty (@new nat 4) = true /\ snd (pop_front (@new nat 4)) = new 4 /\
  snd (pop_back (@new nat 4)) = new 4.
Proof.
  assert (H : is_empty (@new nat 4) = true) by reflexivity.
  split; [exact H|]. exact (proj2 (proj2 (proj2 (empty_deque_edge (new 4)))) H).
Defined.

Lemma with_last_keeps_shape_witness :
  let d := {| capacity := 3; vec := [10; 20; 30] |} in
  last d = Some 30 /\
  exists d', with_last_nth_elem d 0 (fun st a => (st + a, a + 1)) 0 = Ret (0 + 30, d') /\
             last d' = Some (30 + 1).
Proof.
  intros d. assert (H : last d = Some 30) by reflexivity.
  split; [exact H|].
  exact (proj2 (proj2 (with_last_keeps_shape d 0 (fun st a => (st + a, a + 1)) 0)) 30 H).
Defined.

End CircularVecMore.

(* ------------------------------------------------------------------ *)
(** ** Derived layout *)

Module LayoutFacts.
Import Layout.
Section LayoutFacts.
Variable f32 : Type.
Variable add : f32 -> f32 -> f32.
Variable div : f32 -> f32 -> f32.
Variable two : f32.
Variables (y_center margin height : f32).
Variable gap_width : unit -> f32.

Let observer := size_update_observer f32 add div two y_center margin height gap_width.

(** C7: the [size_update] observer is idempotent: evaluated twice on the
    same [(init, size, gap)] input it writes the same selector position and
    breadcrumb gap width both times, whatever the geometry it starts from. *)
Theorem size_update_observer_idempotent (input : unit * Vector2 f32 * Vector2 f32)
    (model model' : geometry f32) :
  observer input (observer input model) = observer input model /\
  observer input model' = observer input model.
Proof.
  destruct input as [[u size] gap]. unfold observer, size_update_observer.
  split; reflexivity.
Qed.

End LayoutFacts.
End LayoutFacts.

(* ------------------------------------------------------------------ *)
(** ** The propagation engine *)

Module FrpFacts.
Import Frp.
Section Engine.
Variable V : Type.
Implicit Types (s old cur : state V) (net ns : list (node V)) (n : node V).

Definition agree_below (k : nat) (c1 c2 : state V) : Prop :=
  forall u, u < k -> vals c1 u = vals c2 u /\ fired c1 u = fired c2 u.

Lemma pass_from_outside old src v : forall ns k cur j,
  (j < k \/ k + List.length ns <= j) ->
  vals (pass_from old src v k ns cur) j = vals cur j /\
  fired (pass_from old src v k ns cur) j = fired cur j.
Proof.
  induction ns as [|n ns IH]; intros k cur j Hj; [auto|].
  cbn [pass_from].
  assert (Hj' : j < S k \/ S k + List.length ns <= j) by (simpl in Hj; lia).
  destruct (IH (S k) (upd cur k (eval_node old cur src v k n)) j Hj') as [-> ->].
  cbn. destruct (Nat.eqb_spec j k); [simpl in Hj; lia|]. auto.
Qed.

Lemma first_emitted_local k c1 c2 us :
  agree_below k c1 c2 -> Forall (fun u => u < k) us ->
  first_emitted c1 us = first_emitted c2 us.
Proof.
  intros Hag Hus. induction Hus as [|u us Hu _ IH]; [reflexivity|].
  cbn. unfold emitted. destruct (Hag u Hu) as [-> ->]. rewrite IH. reflexivity.
Qed.

Lemma existsb_fired_local k c1 c2 us :
  agree_below k c1 c2 -> Forall (fun u => u < k) us ->
  existsb (fired c1) us = existsb (fired c2) us.
Proof.
  intros Hag Hus. induction Hus as [|u us Hu _ IH]; [reflexivity|].
  cbn. destruct (Hag u Hu) as [_ ->]. rewrite IH. reflexivity.
Qed.

Lemma map_vals_local k c1 c2 us :
  agree_below k c1 c2 -> Forall (fun u => u < k) us ->
  map (vals c1) us = map (vals c2) us.
Proof.
  intros Hag Hus. induction Hus as [|u us Hu _ IH]; [reflexivity|].
  cbn. destruct (Hag u Hu) as [-> _]. rewrite IH. reflexivity.
Qed.

Lemma node_out_local old src v k c1 c2 n :
  agree_below k c1 c2 -> Forall (fun u => u < k) (node_refs n) ->
  node_out old c1 src v k n = node_out old c2 src v k n.
Proof.
  intros Hag Hrefs.
  destruct n as [| f u | f u | d t | us | c us | u]; cbn in Hrefs |- *; try reflexivity.
  - inversion Hrefs; subst. unfold emitted. destruct (Hag u) as [-> ->]; auto.
  - inversion Hrefs; subst. unfold emitted. destruct (Hag u) as [-> ->]; auto.
  - inversion Hrefs as [|? ? Hd Ht]; subst. inversion Ht; subst. unfold emitted.
    destruct (Hag t) as [-> ->]; auto. destruct (Hag d) as [-> _]; auto.
  - apply first_emitted_local with (k := k); auto.
  - rewrite (existsb_fired_local k c1 c2 us), (map_vals_local k c1 c2 us); auto.
Qed.

(** The state after a pass solves the node equations: every node's value is
    its rule applied to the final values of the nodes declared before it. *)
Lemma pass_from_spec old src v : forall ns k cur,
  (forall i n, nth_error ns i = Some n -> Forall (fun u => u < k + i) (node_refs n)) ->
  forall i n, nth_error ns i = Some n ->
  let s' := pass_from old src v k ns cur in
  (vals s' (k + i), fired s' (k + i)) = eval_node old s' src v (k + i) n.
Proof.
  induction ns as [|n0 ns IH]; intros k cur Hwf i n Hi s'; [destruct i; discriminate|].
  destruct i as [|i].
  - cbn in Hi. injection Hi as <-. subst s'. rewrite Nat.add_0_r.
    cbn [pass_from].
    destruct (pass_from_outside old src v ns (S k) (upd cur k (eval_node old cur src v k n0)) k
                ltac:(lia)) as [-> ->].
    cbn. rewrite Nat.eqb_refl. unfold eval_node.
    rewrite <- (node_out_local old src v k cur
               (pass_from old src v (S k) ns (upd cur k (fire (node_out old cur src v k n0) (vals old k)))) n0).
    + symmetry. apply surjective_pairing.
    + intros u Hu.
      destruct (pass_from_outside old src v ns (S k)
                  (upd cur k (fire (node_out old cur src v k n0) (vals old k))) u ltac:(lia))
        as [-> ->].
      cbn. destruct (Nat.eqb_spec u k); [lia|]. auto.
    + specialize (Hwf 0 n0 eq_refl). rewrite Nat.add_0_r in Hwf. exact Hwf.
  - cbn in Hi. subst s'. cbn [pass_from].
    replace (k + S i) with (S k + i) by lia.
    apply IH; [|exact Hi].
    intros i' n' Hi'. replace (S k + i') with (k + S i') by lia. apply Hwf. exact Hi'.
Qed.

Section Pass.
Variables (net : list (node V)) (s : state V) (src : nat) (v : V).
Hypothesis Hwf : wf net.
Let s' := pass net s src v.

Lemma pass_spec k n :
  nth_error net k = Some n -> (vals s' k, fired s' k) = eval_node s s' src v k n.
Proof.
  intros Hk. apply (pass_from_spec s src v net 0 _) with (i := k); [|exact Hk].
  intros i m Hi. apply Hwf. exact Hi.
Qed.

Lemma pass_beyond k :
  nth_error net k = None -> vals s' k = vals s k /\ fired s' k = false.
Proof.
  intros Hk. apply nth_error_None in Hk. unfold s', pass.
  destruct (pass_from_outside s src v net 0 {| vals := vals s; fired := fun _ => false |} k)
    as [-> ->]; [lia|]. auto.
Qed.

(** A node fires exactly when its rule produces a value, which becomes its
    current value; otherwise it keeps its previous value. *)
Lemma pass_node k n :
  nth_error net k = Some n ->
  emitted s' k = node_out s s' src v k n /\
  vals s' k = match node_out s s' src v k n with Some y => Some y | None => vals s k end /\
  fired s' k = match node_out s s' src v k n with Some _ => true | None => false end.
Proof.
  intros Hk. pose proof (pass_spec k n Hk) as H. unfold eval_node, fire in H.
  unfold emitted. destruct (node_out s s' src v k n); injection H as -> ->; auto.
Qed.

Lemma pass_quiet k : fired s' k = false -> vals s' k = vals s k.
Proof.
  destruct (nth_error net k) as [n|] eqn:Hk.
  - destruct (pass_node k n Hk) as [_ [-> ->]]. destruct (node_out _ _ _ _ _ _); congruence.
  - intros _. apply pass_beyond. exact Hk.
Qed.

Lemma pass_fired_some k : fired s' k = true -> vals s' k <> None.
Proof.
  destruct (nth_error net k) as [n|] eqn:Hk.
  - destruct (pass_node k n Hk) as [_ [-> ->]]. destruct (node_out _ _ _ _ _ _); congruence.
  - rewrite (proj2 (pass_beyond k Hk)). discriminate.
Qed.

Lemma pass_emitted_fired k : emitted s' k <> None <-> fired s' k = true.
Proof.
  unfold emitted. destruct (fired s' k) eqn:E; [|split; congruence].
  split; [reflexivity|]. intros _. apply pass_fired_some. exact E.
Qed.

End Pass.

Lemma wfb_from_sound : forall ns k,
  wfb_from k ns = true ->
  forall i n, nth_error ns i = Some n -> Forall (fun u => u < k + i) (node_refs n).
Proof.
  induction ns as [|n0 ns IH]; intros k H i n Hi; [destruct i; discriminate|].
  cbn [wfb_from] in H. apply andb_true_iff in H as [H1 H2].
  destruct i as [|i].
  - cbn in Hi. injection Hi as <-. apply Forall_forall. intros u Hu.
    rewrite forallb_forall in H1. specialize (H1 u Hu). apply Nat.ltb_lt in H1. lia.
  - replace (k + S i) with (S k + i) by lia. apply IH; assumption.
Qed.

Lemma wfb_sound net : wfb_from 0 net = true -> wf net.
Proof. intros H k n Hk. apply (wfb_from_sound net 0 H k n Hk). Qed.

Lemma first_emitted_skip (cur : state V) (pre l : list nat) :
  Forall (fun u => fired cur u = false) pre ->
  first_emitted cur (pre ++ l) = first_emitted cur l.
Proof.
  intros H. induction H as [|u pre Hu _ IH]; [reflexivity|].
  cbn. unfold emitted at 1. rewrite Hu. exact IH.
Qed.

Lemma all_some_none_free (l : list (option V)) xs :
  all_some l = Some xs -> Forall (fun o => o <> None) l.
Proof.
  revert xs; induction l as [|[a|] l IH]; intros xs H; cbn in H; [constructor| |discriminate].
  destruct (all_some l) as [ys|] eqn:E; cbn in H; [|discriminate].
  constructor; [discriminate|]. apply (IH ys eq_refl).
Qed.

Lemma all_some_complete (l : list (option V)) :
  Forall (fun o => o <> None) l ->
  exists xs, all_some l = Some xs /\ List.length xs = List.length l.
Proof.
  intros H. induction H as [|[a|] l Ha _ [xs [IH Hlen]]]; [exists []; auto| |congruence].
  exists (a :: xs). cbn. rewrite IH. cbn. auto.
Qed.

Lemma run_snoc (net : list (node V)) : forall evs s src v,
  run net s (evs ++ [(src, v)]) = pass net (run net s evs) src v.
Proof.
  induction evs as [|[src0 v0] evs IH]; intros s src v; [reflexivity|].
  cbn. apply IH.
Qed.

Lemma ever_fired_snoc (net : list (node V)) : forall evs s src v u,
  ever_fired net s (evs ++ [(src, v)]) u =
  ever_fired net s evs u || fired (pass net (run net s evs) src v) u.
Proof.
  induction evs as [|[src0 v0] evs IH]; intros s src v u.
  - cbn. rewrite orb_false_r. reflexivity.
  - cbn. rewrite IH. apply orb_assoc.
Qed.

(** A node has a value exactly when it has fired at least once. *)
Lemma run_vals_ever_fired (net : list (node V)) (Hwf : wf net) : forall evs s u,
  vals (run net s evs) u <> None <-> (vals s u <> None \/ ever_fired net s evs u = true).
Proof.
  induction evs as [|[src v] evs IH]; intros s u.
  - cbn. split; [auto|]. intros [H|H]; [exact H|discriminate].
  - cbn [run ever_fired]. rewrite IH, orb_true_iff.
    destruct (fired (pass net s src v) u) eqn:Ef.
    + pose proof (pass_fired_some net s src v Hwf u Ef). tauto.
    + rewrite (pass_quiet net s src v Hwf u Ef). intuition discriminate.
Qed.

(** C4: MergeAny tie-break.  When several declared upstreams of an [any]
    node fire in the same pass, the node emits the value of the one declared
    first among them. *)
Theorem any_tie_break_declaration_order (net : list (node V)) (s : state V) (src : nat) (v : V)
    (k : nat) (pre mid post : list nat) (a b : nat) :
  wf net -> nth_error net k = Some (Any (pre ++ a :: mid ++ b :: post)) ->
  let s' := pass net s src v in
  Forall (fun u => fired s' u = false) pre -> fired s' a = true -> fired s' b = true ->
  fired s' k = true /\ vals s' k = vals s' a.
Proof.
  intros Hwf Hk s' Hpre Ha Hb.
  destruct (pass_node net s src v Hwf k _ Hk) as [_ [Hv Hf]]. fold s' in Hv, Hf.
  cbn [node_out] in Hv, Hf. rewrite first_emitted_skip in Hv, Hf by exact Hpre.
  cbn [first_emitted] in Hv, Hf. unfold emitted in Hv, Hf. rewrite Ha in Hv, Hf.
  destruct (vals s' a) as [x|] eqn:Hx.
  - auto.
  - exfalso. apply (pass_fired_some net s src v Hwf a); assumption.
Qed.

(** C5: MergeAll.  Along any run from the freshly built network, an [all]
    node fires only in a pass where one of its upstreams fires and after
    every upstream has fired at least once; from then on it fires in every
    pass where some upstream fires, with the tuple of the latest values of
    all upstreams. *)
Theorem all_fires_after_every_upstream (net : list (node V)) (k : nat)
    (c : list V -> V) (us : list nat) (evs : list (nat * V)) (src : nat) (v : V) :
  wf net -> nth_error net k = Some (All c us) ->
  let s' := pass net (run net init evs) src v in
  let evs' := evs ++ [(src, v)] in
  (fired s' k = true ->
     Forall (fun u => ever_fired net init evs' u = true) us /\ existsb (fired s') us = true) /\
  (Forall (fun u => ever_fired net init evs' u = true) us -> existsb (fired s') us = true ->
     fired s' k = true /\
     exists xs, all_some (map (vals s') us) = Some xs /\ List.length xs = List.length us /\
                vals s' k = Some (c xs)).
Proof.
  intros Hwf Hk s' evs'.
  destruct (pass_node net (run net init evs) src v Hwf k _ Hk) as [_ [Hv Hf]].
  fold s' in Hv, Hf. cbn [node_out] in Hv, Hf.
  assert (Hsome : forall u, vals s' u <> None <-> ever_fired net init evs' u = true).
  { intros u. unfold s', evs'. rewrite <- run_snoc, run_vals_ever_fired by exact Hwf.
    cbn. intuition. }
  split.
  - intros Hfk. rewrite Hfk in Hf.
    destruct (existsb (fired s') us) eqn:Hex; [|discriminate].
    destruct (all_some (map (vals s') us)) as [xs|] eqn:Hall; [|discriminate].
    split; [|reflexivity].
    apply all_some_none_free in Hall. rewrite Forall_map in Hall.
    eapply Forall_impl; [|exact Hall]. intros u Hu. apply Hsome. exact Hu.
  - intros Hever Hex. rewrite Hex in Hv, Hf.
    assert (Hnn : Forall (fun o => o <> None) (map (vals s') us)).
    { rewrite Forall_map. eapply Forall_impl; [|exact Hever]. intros u Hu. apply Hsome. exact Hu. }
    destruct (all_some_complete _ Hnn) as [xs [Hall Hlen]].
    rewrite Hall in Hv, Hf. cbn in Hv, Hf. rewrite length_map in Hlen.
    split; [exact Hf|]. exists xs. auto.
Qed.

End Engine.
End FrpFacts.

Module FrpWitnesses.
Import Frp FrpFacts.

Lemma any_tie_break_declaration_order_witness :
  let net := [Source; Map (fun x => x + 1) 0; Map (fun x => x * 10) 0; Any [1; 2]] in
  let s' := pass net init 0 5 in
  fired s' 3 = true /\ vals s' 3 = vals s' 1.
Proof.
  intros net s'.
  apply (any_tie_break_declaration_order nat net init 0 5 3 [] [] [] 1 2).
  - apply wfb_sound. reflexivity.
  - reflexivity.
  - constructor.
  - reflexivity.
  - reflexivity.
Defined.

Lemma all_fires_after_every_upstream_witness :
  let net := [Source; Source; All (fun xs => fold_left Nat.add xs 0) [0; 1]] in
  let s' := pass net (run net init [(0, 1)]) 1 2 in
  fired s' 2 = true /\
  exists xs, all_some (map (vals s') [0; 1]) = Some xs /\ List.length xs = List.length [0; 1] /\
             vals s' 2 = Some (fold_left Nat.add xs 0).
Proof.
  intros net s'.
  apply (proj2 (all_fires_after_every_upstream nat net 2 (fun xs => fold_left Nat.add xs 0)
                  [0; 1] [(0, 1)] 1 2 (wfb_sound nat net eq_refl) eq_refl)).
  - repeat constructor.
  - reflexivity.
Defined.

End FrpWitnesses.

(* ------------------------------------------------------------------ *)
(** ** The network of [init_frp] *)

Module ExecEnvFacts.
Import Frp FrpFacts ExecEnv.
Section Facts.
Variable f32 : Type.
Implicit Types (s : state (value f32)) (ev : event f32).

Lemma network_wf : wf (@network f32).
Proof. apply wfb_sound. reflexivity. Qed.

Lemma step_node s ev k n :
  nth_error network k = Some n ->
  emitted (step s ev) k = node_out s (step s ev) (fst (emission ev)) (snd (emission ev)) k n /\
  vals (step s ev) k =
    match node_out s (step s ev) (fst (emission ev)) (snd (emission ev)) k n with
    | Some y => Some y | None => vals s k end /\
  fired (step s ev) k =
    match node_out s (step s ev) (fst (emission ev)) (snd (emission ev)) k n with
    | Some _ => true | None => false end.
Proof. apply pass_node. apply network_wf. Qed.

Lemma step_quiet s ev k : fired (step s ev) k = false -> vals (step s ev) k = vals s k.
Proof. apply pass_quiet. apply network_wf. Qed.

Lemma step_fired_some s ev k : fired (step s ev) k = true -> vals (step s ev) k <> None.
Proof. apply pass_fired_some. apply network_wf. Qed.

Lemma step_keeps_some s ev k : vals s k <> None -> vals (step s ev) k <> None.
Proof.
  intros H. destruct (fired (step s ev) k) eqn:E.
  - apply step_fired_some. exact E.
  - rewrite step_quiet by exact E. exact H.
Qed.

Local Opaque step.

Ltac unfold_indices :=
  unfold set_available_execution_environments, set_execution_environment,
    toggle_execution_environment, selector_selected_execution_environment,
    out_execution_environment_prev, selected_execution_environment,
    execution_environment_state, execution_environment_toggled, toggled_next,
    toggled_execution_environment, external_execution_environment_update,
    execution_environment_update, out_execution_environment, init_source,
    selector_size, space_for_window_buttons in *.

Ltac emitted_at k :=
  rewrite (proj1 (step_node _ _ k _ eq_refl));
  cbn [node_out first_emitted option_map emission fst snd Nat.eqb]; unfold_indices.

Ltac simp_emitted :=
  repeat match goal with |- context [emitted (step _ _) ?k] => emitted_at k end;
  cbn [into] in *.

(** What [out.execution_environment] emits in a pass. *)
Lemma out_emitted s ev :
  emitted (step s ev) out_execution_environment =
  match ev with
  | SetExecutionEnvironment e | SelectorSelected e => Some (VEnv e)
  | ToggleExecutionEnvironment =>
      match vals (step s ev) execution_environment_state with
      | Some t => unwrap (toggled_map t)
      | None => None
      end
  | _ => None
  end.
Proof.
  destruct ev; unfold_indices; simp_emitted; try reflexivity.
  destruct (vals _ 6) as [t|]; cbn [option_map]; [|reflexivity].
  destruct (unwrap (toggled_map t)); reflexivity.
Qed.

Lemma authoritative_step s ev :
  authoritative (step s ev) =
  match emitted (step s ev) out_execution_environment with
  | Some y => Some y
  | None => authoritative s
  end.
Proof.
  unfold authoritative.
  destruct (step_node s ev 12 _ eq_refl) as [E [Vl _]]. unfold_indices.
  rewrite Vl, E. reflexivity.
Qed.

Lemma available_step s ev :
  available (step s ev) =
  match ev with
  | SetAvailableExecutionEnvironments l => Some (VEnvs l)
  | _ => available s
  end /\
  fired (step s ev) set_available_execution_environments =
  match ev with SetAvailableExecutionEnvironments _ => true | _ => false end.
Proof.
  unfold available.
  destruct (step_node s ev 0 _ eq_refl) as [_ [Vl Fd]]. unfold_indices.
  rewrite Vl, Fd. destruct ev; split; reflexivity.
Qed.

Lemma prev_snapshot s ev :
  reachable_invariant s ->
  vals (step s ev) out_execution_environment_prev = vals s out_execution_environment.
Proof.
  intros (Hsome & Hprev & _ & _).
  destruct (step_node s ev 4 _ eq_refl) as [_ [Vl _]]. unfold_indices.
  rewrite Vl. cbn [node_out].
  destruct (fired s 12) eqn:Ef.
  - specialize (Hsome 12 Ef). destruct (vals s 12); [reflexivity|congruence].
  - apply Hprev. reflexivity.
Qed.

Lemma invariant_step s ev :
  reachable_invariant s -> reachable_invariant (step s ev).
Proof.
  intros Hinv. pose proof (prev_snapshot s ev Hinv) as Hsnap.
  unfold reachable_invariant in *.
  destruct Hinv as (Hsome & Hprev & Hpair & Hstate).
  destruct (step_node s ev 6 _ eq_refl) as [_ [Vl6 _]]. unfold_indices.
  cbn [node_out existsb map all_some option_map] in Vl6.
  split; [|split; [|split]].
  - intros k. apply step_fired_some.
  - intros Hq. rewrite Hsnap. symmetry. apply step_quiet. exact Hq.
  - intros x4 x0 H4 H0. rewrite Vl6, H4, H0. cbn.
    destruct (fired (step s ev) 4) eqn:F4; [reflexivity|].
    destruct (fired (step s ev) 0) eqn:F0; [reflexivity|]. cbn.
    rewrite step_quiet in H4, H0 by assumption. apply Hpair; assumption.
  - intros H6. rewrite Vl6 in H6.
    destruct (vals (step s ev) 4) as [x4|] eqn:V4, (vals (step s ev) 0) as [x0|] eqn:V0;
      try (split; discriminate); exfalso;
      cbn [all_some option_map] in H6;
      assert (Hs6 : vals s 6 <> None)
        by (destruct (fired (step s ev) 4 || (fired (step s ev) 0 || false)); exact H6);
      destruct (Hstate Hs6) as [H4 H0].
    + apply (step_keeps_some s ev 0) in H0. contradiction.
    + apply (step_keeps_some s ev 4) in H4. contradiction.
    + apply (step_keeps_some s ev 4) in H4. contradiction.
Qed.

Lemma invariant_run_events s evs :
  reachable_invariant s -> reachable_invariant (run_events s evs).
Proof.
  revert s; induction evs as [|ev evs IH]; intros s H; [exact H|].
  cbn. apply IH. apply invariant_step. exact H.
Qed.

Lemma invariant_initial : reachable_invariant (@initial f32).
Proof.
  apply invariant_step.
  split; [|split; [|split]]; cbn; try discriminate; auto.
Qed.

(** In a toggle pass, [execution_environment_state] holds the authoritative
    value and the available list as they were before the pass. *)
Lemma state_in_toggle s :
  reachable_invariant s ->
  vals (step s ToggleExecutionEnvironment) execution_environment_state =
  match authoritative s, available s with
  | Some a, Some b => Some (VTuple [a; b])
  | _, _ => None
  end.
Proof.
  intros Hinv. pose proof (prev_snapshot s ToggleExecutionEnvironment Hinv) as Hsnap.
  pose proof (invariant_step s ToggleExecutionEnvironment Hinv) as (_ & _ & Hpair & Hstate).
  destruct (available_step s ToggleExecutionEnvironment) as [Hav _].
  unfold authoritative, available in *. unfold_indices.
  destruct (vals s 12) as [a|] eqn:Ea, (vals s 0) as [b|] eqn:Eb.
  - apply Hpair; assumption.
  - destruct (vals (step s ToggleExecutionEnvironment) 6); [|reflexivity].
    exfalso. destruct Hstate as [_ H0]; [discriminate|]. contradiction.
  - destruct (vals (step s ToggleExecutionEnvironment) 6); [|reflexivity].
    exfalso. destruct Hstate as [H4 _]; [discriminate|]. contradiction.
  - destruct (vals (step s ToggleExecutionEnvironment) 6); [|reflexivity].
    exfalso. destruct Hstate as [H4 _]; [discriminate|]. contradiction.
Qed.

(** One pass of the network follows the recurrence of the spec. *)
Lemma recurrence_step s ev :
  reachable_invariant s ->
  authoritative (step s ev) = spec_recurrence (authoritative s) (available s) ev.
Proof.
  intros Hinv. rewrite authoritative_step, out_emitted.
  destruct ev; try reflexivity.
  rewrite (state_in_toggle s Hinv). unfold spec_recurrence.
  destruct (authoritative s) as [a|], (available s) as [b|]; try reflexivity;
    destruct a; try reflexivity; destruct b; try reflexivity. cbn.
  destruct (get_next_execution_environment e l) as [[n|]|]; reflexivity.
Qed.

(** In a toggle pass, [sample] reads the authoritative value and the
    available list as of the previous pass. *)
Lemma toggle_samples_snapshot s :
  reachable_invariant s ->
  emitted (step s ToggleExecutionEnvironment) execution_environment_toggled =
  match authoritative s, available s with
  | Some a, Some b => Some (VTuple [a; b])
  | _, _ => None
  end.
Proof.
  intros Hinv. pose proof (state_in_toggle s Hinv) as H.
  unfold_indices. emitted_at 7. emitted_at 2. exact H.
Qed.

Lemma run_events_snoc s evs ev : run_events s (evs ++ [ev]) = step (run_events s evs) ev.
Proof. revert s; induction evs as [|ev0 evs IH]; intros s; [reflexivity|]. apply IH. Qed.

Lemma run_events_app s evs1 evs2 :
  run_events s (evs1 ++ evs2) = run_events (run_events s evs1) evs2.
Proof. revert s; induction evs1 as [|ev0 evs IH]; intros s; [reflexivity|]. apply IH. Qed.

Lemma geometry_step s ev :
  reachable_invariant s -> is_geometry ev = true ->
  authoritative (step s ev) = authoritative s /\ available (step s ev) = available s.
Proof.
  intros Hinv Hg. rewrite (recurrence_step s ev Hinv), (proj1 (available_step s ev)).
  destruct ev; try discriminate; split; reflexivity.
Qed.

Lemma geometry_run s gs :
  reachable_invariant s -> Forall (fun ev => is_geometry ev = true) gs ->
  authoritative (run_events s gs) = authoritative s /\ available (run_events s gs) = available s.
Proof.
  intros Hinv Hgs. revert s Hinv.
  induction Hgs as [|ev gs Hev _ IH]; intros s Hinv; [split; reflexivity|].
  cbn [run_events]. destruct (IH (step s ev) (invariant_step s ev Hinv)) as [-> ->].
  apply geometry_step; assumption.
Qed.

(** C1: along every sequence of events after [init_frp], the authoritative
    [out.execution_environment] follows
    [state[t] = merge(external_selection[t], next(state[t-1], toggle[t]))]:
    the "next value" node is evaluated before the authoritative node, and in
    a toggle pass the sampled pair holds the authoritative value as of the
    previous pass. *)
Theorem authoritative_state_recurrence (evs : list (event f32)) (ev : event f32) :
  let s := run_events initial evs in
  toggled_next < out_execution_environment /\
  (forall m l, ev = ToggleExecutionEnvironment ->
     authoritative s = Some (VEnv m) -> available s = Some (VEnvs l) ->
     emitted (step s ev) execution_environment_toggled = Some (VTuple [VEnv m; VEnvs l])) /\
  authoritative (step s ev) = spec_recurrence (authoritative s) (available s) ev.
Proof.
  intros s.
  assert (Hinv : reachable_invariant s) by (apply invariant_run_events, invariant_initial).
  split; [unfold toggled_next, out_execution_environment; lia|split].
  - intros m l -> Ha Hl. rewrite (toggle_samples_snapshot s Hinv), Ha, Hl. reflexivity.
  - apply recurrence_step. exact Hinv.
Qed.

(** C6: a toggle while the current value is absent from the available list
    yields the explicit empty result [None] (no panic); [unwrap] drops it, so
    [toggled_execution_environment] does not fire and the authoritative state
    is unchanged by the pass. *)
Theorem toggle_absent_keeps_state (evs : list (event f32)) (m : ExecutionEnvironment)
    (l : list ExecutionEnvironment) :
  let s := run_events initial evs in
  authoritative s = Some (VEnv m) -> available s = Some (VEnvs l) -> ~ In m l ->
  get_next_execution_environment m l = Ret None /\
  emitted (step s ToggleExecutionEnvironment) toggled_next = Some (VOptEnv None) /\
  fired (step s ToggleExecutionEnvironment) toggled_execution_environment = false /\
  authoritative (step s ToggleExecutionEnvironment) = authoritative s.
Proof.
  intros s Ha Hl Hn.
  assert (Hinv : reachable_invariant s) by (apply invariant_run_events, invariant_initial).
  assert (Hnone : get_next_execution_environment m l = Ret None).
  { unfold get_next_execution_environment. apply position_none in Hn. rewrite Hn. reflexivity. }
  assert (H8 : emitted (step s ToggleExecutionEnvironment) toggled_next = Some (VOptEnv None)).
  { pose proof (toggle_samples_snapshot s Hinv) as H7. rewrite Ha, Hl in H7.
    unfold_indices. emitted_at 8. rewrite H7. cbn. rewrite Hnone. reflexivity. }
  split; [exact Hnone|split; [exact H8|split]].
  - destruct (step_node s ToggleExecutionEnvironment 9 _ eq_refl) as [_ [_ Fd]].
    unfold_indices. rewrite Fd. cbn [node_out]. rewrite H8. reflexivity.
  - rewrite (recurrence_step s _ Hinv), Ha, Hl. cbn. rewrite Hnone. reflexivity.
Qed.

(** C3: the end-to-end scenario on [make_entries = [Design; Live]]: the
    external selection [Live] makes the state [Live], a toggle makes it
    [Design], a second toggle [Live] again; geometry updates ([init], the
    selector's size, the window-button gap), anywhere in between, leave the
    selection unchanged. *)
Theorem design_live_scenario (g0 g1 g2 g3 : list (event f32)) :
  Forall (fun ev => is_geometry ev = true) (g0 ++ g1 ++ g2 ++ g3) ->
  let s1 := run_events initial
              (SetAvailableExecutionEnvironments make_entries :: g0 ++ [SetExecutionEnvironment Live]) in
  let s2 := run_events s1 (g1 ++ [ToggleExecutionEnvironment]) in
  let s3 := run_events s2 (g2 ++ [ToggleExecutionEnvironment]) in
  let s4 := run_events s3 g3 in
  (forall evs ev, is_geometry ev = true ->
     authoritative (step (run_events initial evs) ev) = authoritative (run_events initial evs)) /\
  authoritative s1 = Some (VEnv Live) /\ authoritative s2 = Some (VEnv Design) /\
  authoritative s3 = Some (VEnv Live) /\ authoritative s4 = Some (VEnv Live).
Proof.
  intros Hg s1 s2 s3 s4.
  rewrite !Forall_app in Hg. destruct Hg as (Hg0 & Hg1 & Hg2 & Hg3).
  assert (Hinv : forall evs, reachable_invariant (run_events initial evs))
    by (intros; apply invariant_run_events, invariant_initial).
  assert (Hav1 : available s1 = Some (VEnvs make_entries)).
  { unfold s1. cbn [app run_events]. rewrite run_events_snoc, (proj1 (available_step _ _)).
    rewrite (proj2 (geometry_run _ g0 (invariant_step _ _ invariant_initial) Hg0)).
    apply (available_step initial). }
  assert (Ha1 : authoritative s1 = Some (VEnv Live)).
  { unfold s1. cbn [app run_events]. rewrite run_events_snoc, recurrence_step. 1: reflexivity.
    apply invariant_run_events, invariant_step, invariant_initial. }
  assert (Hinv1 : reachable_invariant s1) by apply Hinv.
  pose proof (invariant_run_events s1 g1 Hinv1) as Hinv1'.
  assert (Ha2 : authoritative s2 = Some (VEnv Design) /\ available s2 = available s1).
  { unfold s2. rewrite run_events_snoc, recurrence_step, (proj1 (available_step _ _)) by exact Hinv1'.
    destruct (geometry_run s1 g1 Hinv1 Hg1) as [-> ->]. rewrite Ha1, Hav1.
    split; reflexivity. }
  assert (Hinv2 : reachable_invariant s2) by exact (invariant_run_events s1 _ Hinv1).
  pose proof (invariant_run_events s2 g2 Hinv2) as Hinv2'.
  assert (Ha3 : authoritative s3 = Some (VEnv Live)).
  { unfold s3. rewrite run_events_snoc, recurrence_step by exact Hinv2'.
    destruct (geometry_run s2 g2 Hinv2 Hg2) as [-> ->]. rewrite (proj1 Ha2), (proj2 Ha2), Hav1.
    reflexivity. }
  assert (Hinv3 : reachable_invariant s3) by exact (invariant_run_events s2 _ Hinv2).
  split; [|split; [exact Ha1|split; [exact (proj1 Ha2)|split; [exact Ha3|]]]].
  - intros evs ev Hev. exact (proj1 (geometry_step _ _ (Hinv evs) Hev)).
  - unfold s4. rewrite (proj1 (geometry_run s3 g3 Hinv3 Hg3)). exact Ha3.
Qed.

(** Every environment [get_next_execution_environment] returns is an
    element of the available list, and it returns one only when the
    current environment is in that list too. *)
Theorem get_next_in_available (c x : ExecutionEnvironment) (av : list ExecutionEnvironment) :
  get_next_execution_environment c av = Ret (Some x) -> In x av /\ In c av.
Proof.
  unfold get_next_execution_environment.
  destruct (position (fun mode => String.eqb mode c) av) as [index|] eqn:Hp; [|discriminate].
  unfold usize_rem, slice_index. destruct (List.length av =? 0); [discriminate|]. cbn.
  destruct (nth_error av ((index + 1) mod List.length av)) as [y|] eqn:Hy; [|discriminate].
  cbn. intros H. injection H as <-. split; [exact (nth_error_In _ _ Hy)|].
  destruct (In_dec String.string_dec c av) as [Hin|Hin]; [exact Hin|].
  apply position_none in Hin. congruence.
Qed.

Lemma get_next_nodup (av : list ExecutionEnvironment) (i : nat) :
  NoDup av -> i < List.length av ->
  get_next_execution_environment (nth i av ""%string) av =
    Ret (Some (nth ((i + 1) mod List.length av) av ""%string)).
Proof.
  intros Hnd Hi.
  destruct (nth_split av ""%string Hi) as (pre & post & Hav & Hlen).
  assert (Hn : ~ In (nth i av ""%string) pre).
  { rewrite Hav in Hnd. apply NoDup_remove_2 in Hnd. intros H; apply Hnd, in_or_app; auto. }
  pose proof (position_first _ pre post Hn) as Hp. rewrite <- Hav, Hlen in Hp.
  destruct (get_next_found _ _ _ Hp) as (x & Hx & ->).
  rewrite (nth_error_nth _ _ _ Hx). reflexivity.
Qed.

Lemma toggles_cycle_reachable (l : list ExecutionEnvironment) (k : nat) :
  NoDup l -> forall s i, reachable_invariant s -> i < List.length l ->
  authoritative s = Some (VEnv (nth i l ""%string)) -> available s = Some (VEnvs l) ->
  authoritative (run_events s (repeat ToggleExecutionEnvironment k)) =
    Some (VEnv (nth ((i + k) mod List.length l) l ""%string)).
Proof.
  intros Hnd. induction k as [|k IH]; intros s i Hinv Hi Ha Hl.
  - cbn. rewrite Nat.add_0_r, Nat.mod_small by exact Hi. exact Ha.
  - cbn [repeat run_events].
    assert (Hn : List.length l <> 0) by lia.
    assert (Ha' : authoritative (step s ToggleExecutionEnvironment) =
                  Some (VEnv (nth ((i + 1) mod List.length l) l ""%string))).
    { rewrite (recurrence_step s _ Hinv), Ha, Hl. cbn. rewrite (get_next_nodup l i Hnd Hi).
      reflexivity. }
    assert (Hl' : available (step s ToggleExecutionEnvironment) = Some (VEnvs l))
      by (rewrite (proj1 (available_step _ _)); exact Hl).
    rewrite (IH _ _ (invariant_step _ _ Hinv) (Nat.mod_upper_bound _ _ Hn) Ha' Hl').
    rewrite Nat.Div0.add_mod_idemp_l. replace (i + 1 + k) with (i + S k) by lia. reflexivity.
Qed.

(** Toggling [k] times, with no other event in between, from a state whose
    environment is entry [i] of a duplicate-free available list, lands on
    entry [(i + k) mod length]: the toggle cycles through the list and
    returns to the start after [length] toggles. *)
Theorem toggles_cycle (evs : list (event f32)) (l : list ExecutionEnvironment) (i k : nat) :
  let s := run_events initial evs in
  NoDup l -> i < List.length l ->
  authoritative s = Some (VEnv (nth i l ""%string)) -> available s = Some (VEnvs l) ->
  authoritative (run_events s (repeat ToggleExecutionEnvironment k)) =
    Some (VEnv (nth ((i + k) mod List.length l) l ""%string)).
Proof.
  intros s Hnd Hi Ha Hl. apply toggles_cycle_reachable; try assumption.
  apply invariant_run_events, invariant_initial.
Qed.

(** The selection made in the selector widget is not sent back to it: in a
    [selected_execution_environment] pass [external_execution_environment_update]
    (which feeds [set_execution_environment] of the selector) does not fire
    while [out.execution_environment] emits the selection; and every value
    sent to the selector is emitted on [out.execution_environment] in the
    same pass. *)
Theorem selector_not_echoed s ev :
  (forall e, ev = SelectorSelected e ->
     emitted (step s ev) external_execution_environment_update = None /\
     emitted (step s ev) out_execution_environment = Some (VEnv e)) /\
  (forall x, emitted (step s ev) external_execution_environment_update = Some x ->
     emitted (step s ev) out_execution_environment = Some x).
Proof.
  split.
  - intros e ->. unfold_indices. simp_emitted. split; reflexivity.
  - intros x. destruct ev; unfold_indices; simp_emitted; intros H; try discriminate H; try exact H.
    destruct (option_map toggled_map (vals (step s ToggleExecutionEnvironment) 6)) as [a|];
      [destruct (unwrap a)|]; cbn in *; congruence.
Qed.

Lemma source_step s ev k :
  nth_error (@network f32) k = Some Source ->
  fired (step s ev) k = (k =? fst (emission ev)) /\
  vals (step s ev) k = if k =? fst (emission ev) then Some (snd (emission ev)) else vals s k.
Proof.
  intros Hk. destruct (step_node s ev k _ Hk) as [_ [Vl Fd]].
  rewrite Vl, Fd. cbn [node_out]. destruct (k =? fst (emission ev)); split; reflexivity.
Qed.

Lemma init_source_unit s ev :
  vals s init_source = Some VUnit -> vals (step s ev) init_source = Some VUnit.
Proof.
  intros H. rewrite (proj2 (source_step s ev init_source eq_refl)).
  unfold init_source in *. destruct ev; cbn; assumption || reflexivity.
Qed.

Lemma init_source_reachable evs : vals (run_events (@initial f32) evs) init_source = Some VUnit.
Proof.
  assert (G : forall s, vals s init_source = Some VUnit ->
                vals (run_events s evs) init_source = Some VUnit).
  { induction evs as [|ev evs IH]; intros s H; [exact H|]. apply IH, init_source_unit, H. }
  apply G. unfold initial. rewrite (proj2 (source_step init Init init_source eq_refl)). reflexivity.
Qed.

Lemma layout_fires_step s ev :
  vals s init_source = Some VUnit ->
  (fired (step s ev) size_update = true <->
     is_geometry ev = true /\ vals (step s ev) selector_size <> None /\
     vals (step s ev) space_for_window_buttons <> None) /\
  (fired (step s ev) size_update = true ->
     exists size gap, vals (step s ev) selector_size = Some size /\
                      vals (step s ev) space_for_window_buttons = Some gap /\
                      vals (step s ev) size_update = Some (VTuple [VUnit; size; gap])).
Proof.
  intros H0. pose proof (init_source_unit s ev H0) as H13.
  destruct (step_node s ev 16 _ eq_refl) as [_ [Vl Fd]].
  unfold size_update, selector_size, space_for_window_buttons.
  rewrite Vl, Fd. cbn [node_out existsb map all_some]. unfold_indices.
  rewrite (proj1 (source_step s ev 13 eq_refl)), (proj1 (source_step s ev 14 eq_refl)),
    (proj1 (source_step s ev 15 eq_refl)).
  unfold init_source in H13. rewrite H13.
  destruct (vals (step s ev) 14) as [sz|], (vals (step s ev) 15) as [gp|];
    destruct ev; cbn [Nat.eqb fst snd emission orb is_geometry option_map]; split.
  all: unfold_indices; cbn.
  all: first
    [ split;
        [ intros H; first [discriminate H | repeat split; congruence]
        | intros (Hg & H14 & H15); first [discriminate Hg | congruence | reflexivity] ]
    | intros H; first [discriminate H | eexists _, _; repeat split] ].
Qed.

(** After [init_frp] (which emits [init]), the layout observer's input
    [size_update] fires in a pass exactly when the pass is an [init], a
    selector-size or a window-button-gap event and both the selector size
    and the gap have been emitted at least once; it then carries the latest
    size and gap. *)
Theorem layout_fires_on_geometry (evs : list (event f32)) (ev : event f32) :
  let s' := step (run_events initial evs) ev in
  (fired s' size_update = true <->
     is_geometry ev = true /\ vals s' selector_size <> None /\ vals s' space_for_window_buttons <> None) /\
  (fired s' size_update = true ->
     exists size gap, vals s' selector_size = Some size /\ vals s' space_for_window_buttons = Some gap /\
                      vals s' size_update = Some (VTuple [VUnit; size; gap])).
Proof.
  intros s'. apply layout_fires_step, init_source_reachable.
Qed.

End Facts.
End ExecEnvFacts.

Module ExecEnvWitnesses.
Import Frp ExecEnv ExecEnvFacts.

Lemma authoritative_state_recurrence_witness :
  let s := run_events (@initial unit)
             [SetAvailableExecutionEnvironments make_entries; SetExecutionEnvironment Live] in
  authoritative s = Some (VEnv Live) /\ available s = Some (VEnvs make_entries) /\
  emitted (step s ToggleExecutionEnvironment) execution_environment_toggled =
    Some (VTuple [VEnv Live; VEnvs make_entries]) /\
  authoritative (step s ToggleExecutionEnvironment) = Some (VEnv Design).
Proof.
  intros s.
  assert (Ha : authoritative s = Some (VEnv Live)) by (vm_compute; reflexivity).
  assert (Hl : available s = Some (VEnvs make_entries)) by (vm_compute; reflexivity).
  destruct (authoritative_state_recurrence unit
              [SetAvailableExecutionEnvironments make_entries; SetExecutionEnvironment Live]
              ToggleExecutionEnvironment) as [_ [Hs Hr]].
  split; [exact Ha|split; [exact Hl|split]].
  - exact (Hs Live make_entries eq_refl Ha Hl).
  - fold s in Hr. rewrite Hr, Ha, Hl. reflexivity.
Defined.

Lemma toggle_absent_keeps_state_witness :
  let s := run_events (@initial unit)
             [SetAvailableExecutionEnvironments make_entries; SetExecutionEnvironment "Staging"%string] in
  get_next_execution_environment "Staging"%string make_entries = Ret None /\
  emitted (step s ToggleExecutionEnvironment) toggled_next = Some (VOptEnv None) /\
  fired (step s ToggleExecutionEnvironment) toggled_execution_environment = false /\
  authoritative (step s ToggleExecutionEnvironment) = Some (VEnv "Staging"%string).
Proof.
  intros s.
  assert (Ha : authoritative s = Some (VEnv "Staging"%string)) by (vm_compute; reflexivity).
  assert (Hl : available s = Some (VEnvs make_entries)) by (vm_compute; reflexivity).
  assert (Hn : ~ In "Staging"%string make_entries)
    by (cbn; intros [H|[H|[]]]; discriminate H).
  destruct (toggle_absent_keeps_state unit
              [SetAvailableExecutionEnvironments make_entries; SetExecutionEnvironment "Staging"%string]
              "Staging"%string make_entries Ha Hl Hn) as (H1 & H2 & H3 & H4).
  split; [exact H1|split; [exact H2|split; [exact H3|]]].
  fold s in H4. rewrite H4. exact Ha.
Defined.

Lemma design_live_scenario_witness :
  let g0 := [Init] in
  let g1 := [SelectorSize tt tt] in
  let g2 := [SpaceForWindowButtons tt tt] in
  let g3 := [SelectorSize tt tt; Init] in
  Forall (fun ev => is_geometry ev = true) (g0 ++ g1 ++ g2 ++ g3) /\
  let s1 := run_events initial
              (SetAvailableExecutionEnvironments make_entries :: g0 ++ [SetExecutionEnvironment Live]) in
  let s2 := run_events s1 (g1 ++ [ToggleExecutionEnvironment]) in
  let s3 := run_events s2 (g2 ++ [ToggleExecutionEnvironment]) in
  let s4 := run_events s3 g3 in
  authoritative s1 = Some (VEnv Live) /\ authoritative s2 = Some (VEnv Design) /\
  authoritative s3 = Some (VEnv Live) /\ authoritative s4 = Some (VEnv Live).
Proof.
  intros g0 g1 g2 g3.
  assert (Hg : Forall (fun ev => is_geometry ev = true) (g0 ++ g1 ++ g2 ++ g3))
    by (repeat constructor).
  split; [exact Hg|].
  exact (proj2 (design_live_scenario unit g0 g1 g2 g3 Hg)).
Defined.

Lemma get_next_in_available_witness :
  get_next_execution_environment Design make_entries = Ret (Some Live) /\
  In Live make_entries /\ In Design make_entries.
Proof.
  assert (H : get_next_execution_environment Design make_entries = Ret (Some Live))
    by reflexivity.
  exact (conj H (get_next_in_available Design Live make_entries H)).
Defined.

Lemma toggles_cycle_witness :
  let s := run_events (@initial unit)
             [SetAvailableExecutionEnvironments make_entries; SetExecutionEnvironment Design] in
  NoDup make_entries /\ 0 < List.length make_entries /\
  authoritative s = Some (VEnv (nth 0 make_entries ""%string)) /\
  available s = Some (VEnvs make_entries) /\
  authoritative (run_events s (repeat ToggleExecutionEnvironment 3)) =
    Some (VEnv (nth ((0 + 3) mod List.length make_entries) make_entries ""%string)).
Proof.
  intros s.
  assert (Hnd : NoDup make_entries)
    by (constructor; [cbn; intros [H|[]]; discriminate H|constructor; [intros []|constructor]]).
  assert (Hi : 0 < List.length make_entries) by (cbn; lia).
  assert (Ha : authoritative s = Some (VEnv (nth 0 make_entries ""%string))) by (vm_compute; reflexivity).
  assert (Hl : available s = Some (VEnvs make_entries)) by (vm_compute; reflexivity).
  split; [exact Hnd|split; [exact Hi|split; [exact Ha|split; [exact Hl|]]]].
  exact (toggles_cycle unit _ make_entries 0 3 Hnd Hi Ha Hl).
Defined.

Lemma selector_not_echoed_witness :
  (emitted (step (@initial unit) (SelectorSelected Live)) external_execution_environment_update = None /\
   emitted (step (@initial unit) (SelectorSelected Live)) out_execution_environment = Some (VEnv Live)) /\
  emitted (step (@initial unit) (SetExecutionEnvironment Live)) external_execution_environment_update =
    Some (VEnv Live) /\
  emitted (step (@initial unit) (SetExecutionEnvironment Live)) out_execution_environment = Some (VEnv Live).
Proof.
  assert (H : emitted (step (@initial unit) (SetExecutionEnvironment Live))
                external_execution_environment_update = Some (VEnv Live)) by (vm_compute; reflexivity).
  split; [exact (proj1 (selector_not_echoed unit initial (SelectorSelected Live)) Live eq_refl)|].
  split; [exact H|].
  exact (proj2 (selector_not_echoed unit initial (SetExecutionEnvironment Live)) _ H).
Defined.

Lemma layout_fires_on_geometry_witness :
  let s' := step (run_events (@initial unit) [SelectorSize tt tt]) (SpaceForWindowButtons tt tt) in
  fired s' size_update = true /\
  exists size gap, vals s' selector_size = Some size /\ vals s' space_for_window_buttons = Some gap /\
                   vals s' size_update = Some (VTuple [VUnit; size; gap]).
Proof.
  intros s'. assert (H : fired s' size_update = true) by (vm_compute; reflexivity).
  split; [exact H|].
  exact (proj2 (layout_fires_on_geometry unit [SelectorSize tt tt] (SpaceForWindowButtons tt tt)) H).
Defined.

End ExecEnvWitnesses.
